(** * IdentityCloud: identity, trust score and escrow wallet ledger

    A shallow embedding of the Go service [services/identity-cloud]:
    the domain model ([domain]), the Neo4j repository ([repository],
    each Cypher query read as one atomic transition of the graph), the
    business layer ([service]) and the gRPC handlers ([grpc]).

    Numbers are modelled as the code has them:
    - Go [float64] and Cypher [Float] are IEEE 754 binary64, here Rocq's
      primitive [float];
    - Cypher [Integer] is a signed 64-bit integer whose arithmetic raises
      an error on overflow, here [Z] with the range check written out;
    - Go [uint32]/[uint64] conversions wrap, written with [Z.modulo];
    - [decimal.Decimal] is an integer coefficient with a decimal exponent. *)

From Stdlib Require Import ZArith Floats Uint63 Ascii String Lia.
From stdpp Require Import gmap strings list.

Set Warnings "-inexact-float".
Local Open Scope Z_scope.

(** ** Binary64 helpers *)

(** Exact quotient of two positive integers, rounded once to binary64
    (round to nearest, ties to even). *)
Definition round_ratio (neg : bool) (p q : positive) : float :=
  SF2Prim (SFdiv prec emax (S754_finite neg p 0) (S754_finite false q 0)).

(** Go's [float64(x)] for an unsigned 32-bit [x]: exact. *)
Definition float64_of_uint32 (z : Z) : float := PrimFloat.of_uint63 (Uint63.of_Z z).

(** Integer part of a float, truncated toward zero ([None] for NaN and
    infinities). *)
Definition float_trunc (f : float) : option Z :=
  match Prim2SF f with
  | S754_zero _ => Some 0
  | S754_finite s m e =>
      let a := Z.shiftl (Z.pos m) e in Some (if s then - a else a)
  | _ => None
  end.

(** Go's [uint32(f)] for a float [f]: the fractional part is discarded.
    The language leaves out-of-range operands to the implementation; the
    service only converts the product of an unsigned 32-bit value and
    0.30, or of a tau and 1000, which lie in [0, 2^32). *)
Definition uint32_of_float (f : float) : Z :=
  match float_trunc f with
  | Some z => z mod 2 ^ 32
  | None => 0
  end.


(** ** [github.com/shopspring/decimal] *)

Module decimal.

(** [value * 10 ^ exp]. *)
Record Decimal := mk { value : Z; exp : Z }.

Definition Zero : Decimal := mk 0 0.

Definition rescale (d : Decimal) (e : Z) : Z := value d * 10 ^ (exp d - e).

Definition Cmp (a b : Decimal) : comparison :=
  let e := Z.min (exp a) (exp b) in rescale a e ?= rescale b e.

Definition Add (a b : Decimal) : Decimal :=
  let e := Z.min (exp a) (exp b) in mk (rescale a e + rescale b e) e.

Definition Equal (a b : Decimal) : bool :=
  match Cmp a b with Eq => true | _ => false end.

Definition LessThanOrEqual (a b : Decimal) : bool :=
  match Cmp a b with Gt => false | _ => true end.

Definition GreaterThanOrEqual (a b : Decimal) : bool :=
  match Cmp a b with Lt => false | _ => true end.

(** [d.Float64()]: the binary64 nearest to the decimal; the exactness
    flag is the second result in Go and every caller drops it. *)
Definition Float64 (d : Decimal) : float :=
  let ratio neg p :=
    if 0 <=? exp d
    then round_ratio neg (p * Z.to_pos (10 ^ exp d)) 1
    else round_ratio neg p (Z.to_pos (10 ^ (- exp d))) in
  match value d with
  | 0 => 0%float
  | Z.pos p => ratio false p
  | Z.neg p => ratio true p
  end.

(** *** Parsing: [decimal.NewFromString] *)

Definition is_digit (c : ascii) : bool :=
  let n := Z.of_N (N_of_ascii c) in (48 <=? n) && (n <=? 57).

Fixpoint digits_value (acc : Z) (l : list ascii) : option Z :=
  match l with
  | [] => Some acc
  | c :: r =>
      if is_digit c
      then digits_value (10 * acc + (Z.of_N (N_of_ascii c) - 48)) r
      else None
  end.

(** An optionally signed, non-empty run of decimal digits. *)
Definition parse_int (l : list ascii) : option Z :=
  let unsigned r := match r with [] => None | _ => digits_value 0 r end in
  match l with
  | "+"%char :: r => unsigned r
  | "-"%char :: r => Z.opp <$> unsigned r
  | _ => unsigned l
  end.

Definition is_e (c : ascii) : bool :=
  if decide (c = "e"%char) then true else bool_decide (c = "E"%char).

(** Splits at the first character satisfying [p], which is dropped. *)
Fixpoint split_at (p : ascii → bool) (l : list ascii)
  : list ascii * option (list ascii) :=
  match l with
  | [] => ([], None)
  | c :: r =>
      if p c then ([], Some r)
      else let '(a, b) := split_at p r in (c :: a, b)
  end.

Definition is_dot (c : ascii) : bool := bool_decide (c = "."%char).

Definition in_int32 (z : Z) : bool := (- 2 ^ 31 <=? z) && (z <? 2 ^ 31).

Definition NewFromString (s : string) : option Decimal :=
  let '(mant, etail) := split_at is_e (list_ascii_of_string s) in
  e ← match etail with
      | None => Some 0
      | Some t => x ← parse_int t; if in_int32 x then Some x else None
      end;
  let '(ip, ftail) := split_at is_dot mant in
  '(intString, shift) ← match ftail with
      | None => Some (ip, 0)
      | Some fp =>
          if existsb is_dot fp then None
          else Some (ip ++ fp, - Z.of_nat (length fp))
      end;
  v ← parse_int intString;
  if in_int32 (e + shift) then Some (mk v (e + shift)) else None.

(** *** Reading back a stored balance

    The wallet balances are string properties that are only ever
    written as [toString] of a Cypher float.  [ofDouble f] is the
    decimal that [decimal.NewFromString] reads from that string: the
    shortest decimal that denotes [f] again when read as a double
    (the coefficient and exponent of the Go value may be another pair
    for the same number, as in "5.0"; every operation used here depends
    on the number only).  "NaN" and "Infinity" do not parse; the
    repository drops the error and keeps the zero decimal. *)

Definition reads_as (neg : bool) (c k : Z) (f : float) : bool :=
  PrimFloat.eqb (Float64 (mk (if neg then - c else c) k)) f.

(** Candidates with exponent [k] on either side of [p/q]. *)
Definition candidate (neg : bool) (p q : Z) (f : float) (k : Z) : option Z :=
  let num := if 0 <=? k then p else p * 10 ^ (- k) in
  let den := if 0 <=? k then q * 10 ^ k else q in
  let lo := num / den in
  let hi := lo + 1 in
  let lo_ok := (0 <? lo) && reads_as neg lo k f in
  let hi_ok := reads_as neg hi k f in
  if lo_ok && hi_ok then
    Some (if 2 * num <=? (lo + hi) * den then lo else hi)
  else if lo_ok then Some lo
  else if hi_ok then Some hi
  else None.

Fixpoint shortest (fuel : nat) (neg : bool) (p q : Z) (f : float) (k : Z)
  : option Decimal :=
  match fuel with
  | O => None
  | S n =>
      match candidate neg p q f k with
      | Some c => Some (mk (if neg then - c else c) k)
      | None => shortest n neg p q f (k - 1)
      end
  end.

Definition ofDouble (f : float) : Decimal :=
  match Prim2SF f with
  | S754_finite s m e =>
      let p := if 0 <=? e then Z.pos m * 2 ^ e else Z.pos m in
      let q := if 0 <=? e then 1 else 2 ^ (- e) in
      let k0 := (Z.log2 p - Z.log2 q + 1) * 30103 / 100000 + 1 in
      match shortest 40 s p q f k0 with
      | Some d => d
      | None => if 0 <=? e then mk (if s then - p else p) 0
                else mk ((if s then - p else p) * 5 ^ (- e)) e
      end
  | _ => Zero
  end.

End decimal.

Import decimal.

(** Timestamps, in milliseconds since the Unix epoch. *)
Definition Time := Z.

(** Go's zero [time.Time], January 1 of the year 1, which a field of
    that type holds until it is assigned. *)
Definition zeroTime : Time := -62135596800000.

(** ** Package [domain] *)

Module domain.

Inductive EntityType :=
| EntityTypeUnspecified
| EntityTypeHuman
| EntityTypeAgent
| EntityTypeOrganization.

Record UnifiedID := {
  DID : string;
  EntityType_ : EntityType;
  ParentDID : option string;
  CreatedAt : Time;
  PublicKey : list Byte.byte;
}.

Record TrustComponents := {
  VerificationScore : Z;   (* uint32, 0-400 *)
  DisputePenalty : Z;      (* uint32, 0-200 *)
  SLAScore : Z;            (* uint32, 0-200 *)
  NetworkScore : Z;        (* uint32, 0-200 *)
}.

Record TrustScore := {
  Score : Z;               (* uint32, 0-1000 *)
  Components : TrustComponents;
  UpdatedAt : Time;
  VerifiedOutcomes : Z;    (* uint64 *)
  DisputeRate : float;
  Version : Z;             (* uint64 *)
}.

Definition MaxScore : Z := 1000.
Definition MaxDiscountRate : float := 0.20.
Definition InheritedTrust : float := 0.30.
Definition MinInheritedTau : float := 0.10.

Definition Tau (t : TrustScore) : float :=
  (float64_of_uint32 (Score t) / float64_of_uint32 MaxScore)%float.

Definition DiscountRate (t : TrustScore) : float :=
  let discount := (Tau t * MaxDiscountRate)%float in
  if PrimFloat.ltb MaxDiscountRate discount then MaxDiscountRate else discount.

Definition IsHighTrust (t : TrustScore) : bool := 800 <=? Score t.
Definition IsMediumTrust (t : TrustScore) : bool :=
  (500 <=? Score t) && (Score t <? 800).
Definition IsLowTrust (t : TrustScore) : bool := Score t <? 500.

Definition InheritedTauForChild (t : TrustScore) : float :=
  let inherited := (Tau t * InheritedTrust)%float in
  if PrimFloat.ltb inherited MinInheritedTau then MinInheritedTau else inherited.

Record HCWallet := {
  OwnerDID : string;
  Available : Decimal;
  Locked : Decimal;
  ExpiresAt : Time;
  WVersion : Z;            (* uint64 *)
  WUpdatedAt : Time;
}.

Definition Total (w : HCWallet) : Decimal := Add (Available w) (Locked w).

(** [time.Now().After(w.ExpiresAt)], with the clock reading passed in. *)
Definition IsExpired (now : Time) (w : HCWallet) : bool := ExpiresAt w <? now.

Definition CanLock (now : Time) (w : HCWallet) (amount : Decimal) : bool :=
  GreaterThanOrEqual (Available w) amount && negb (IsExpired now w).

Record AgentLineage := {
  AgentDID : string;
  LParentDID : option string;
  RootDID : string;
  Depth : Z;
  SpawnedAt : Time;
  Ancestors : list string;
}.

(** [EntityType.String]. *)
Definition EntityType_String (e : EntityType) : string :=
  match e with
  | EntityTypeHuman => "human"
  | EntityTypeAgent => "agent"
  | EntityTypeOrganization => "organization"
  | EntityTypeUnspecified => "unspecified"
  end.

End domain.

Import domain.

(** ** Errors and the store monad *)

(** The errors the repository and the service build with [fmt.Errorf],
    one constructor per message. *)
Inductive error :=
| ErrIdentityNotFound          (* "identity not found: ..." *)
| ErrTrustNotFound             (* "trust score not found for: ..." *)
| ErrWalletNotFound            (* "wallet not found for: ..." *)
| ErrLineageNotFound           (* "lineage not found for: ..." *)
| ErrTrustConcurrent           (* "concurrent modification detected for trust score: ..." *)
| ErrInsufficientOrConcurrent  (* "insufficient balance or concurrent modification" *)
| ErrWalletExpired             (* "wallet has expired credits" *)
| ErrInsufficientBalance       (* "insufficient balance: available=..., requested=..." *)
| ErrDatabase.                 (* an error raised by the query itself *)

Inductive result (A : Type) :=
| Ok (a : A)
| Err (e : error).
Arguments Ok {A} a.
Arguments Err {A} e.

(** ** The graph *)

(** Properties of a [:TrustScore] node, as Cypher values. *)
Record TrustNode := {
  score : Z;
  verification_score : Z;
  dispute_penalty : Z;
  sla_score : Z;
  network_score : Z;
  t_updated_at : Time;
  verified_outcomes : Z;
  dispute_rate : float;
  t_version : Z;
}.

(** Properties of an [:HCWallet] node.  [available] and [locked] are
    string properties; every query reads them with [toFloat] and writes
    them with [toString] of a float, and [toFloat] inverts [toString],
    so the property is identified with the double it denotes (the
    initial ['0'] is [0]). *)
Record WalletNode := {
  available : float;
  locked : float;
  expires_at : Time;
  w_version : Z;
  w_updated_at : Time;
}.

(** An [:Identity] node with its [HAS_TRUST] and [OWNS_WALLET]
    neighbours, which are created with it and never deleted, and the
    source of its incoming [SPAWNED] edge, if it has one. *)
Record Node := {
  entity_type : EntityType;
  created_at : Time;
  public_key : list Byte.byte;
  spawned_by : option string;
  trust : TrustNode;
  wallet : WalletNode;
}.

(** The database: identity nodes by [did] (the uniqueness constraint
    [identity_did]). *)
Abbreviation Store := (gmap string Node).

Definition with_trust (n : Node) (t : TrustNode) : Node :=
  {| entity_type := entity_type n; created_at := created_at n;
     public_key := public_key n; spawned_by := spawned_by n;
     trust := t; wallet := wallet n |}.

Definition with_wallet (n : Node) (w : WalletNode) : Node :=
  {| entity_type := entity_type n; created_at := created_at n;
     public_key := public_key n; spawned_by := spawned_by n;
     trust := trust n; wallet := w |}.

(** A call against the database: a result and the database afterwards. *)
Definition M (A : Type) : Type := Store → result A * Store.

Definition ret {A} (a : A) : M A := fun s => (Ok a, s).
Definition fail {A} (e : error) : M A := fun s => (Err e, s).
Definition bind {A B} (m : M A) (k : A → M B) : M B :=
  fun s => match m s with
           | (Ok a, s') => k a s'
           | (Err e, s') => (Err e, s')
           end.

Notation "'do' x <- m ; k" := (bind m (fun x => k))
  (at level 10, x name, m at level 100, k at level 200).

(** ** Cypher values *)

Definition in_int64 (z : Z) : bool := (- 2 ^ 63 <=? z) && (z <? 2 ^ 63).

(** Integer arithmetic of the query language: the sum in 64 bits, or an
    error for the whole query. *)
Definition cy_add (a b : Z) : option Z :=
  if in_int64 (a + b) then Some (a + b) else None.
Definition cy_sub (a b : Z) : option Z :=
  if in_int64 (a - b) then Some (a - b) else None.

(** [duration('P30D')]. *)
Definition P30D : Z := 30 * 86400000.

(** What the driver (neo4j-go-driver v5) hands to Go for a temporal
    value: a [time.Time] for a zoned date-time, a [neo4j.LocalDateTime]
    for a local one.  Every temporal property of the graph is written
    with [datetime(...)], which is zoned. *)
Inductive temporal :=
| GoTime (t : Time)
| LocalDateTime (t : Time).

Definition delivered (stored : Time) : temporal := GoTime stored.

(** [if v, ok := value.(neo4j.LocalDateTime); ok { field = v.Time() }]
    on a field that has not been assigned. *)
Definition local_date_time (value : temporal) : Time :=
  match value with
  | LocalDateTime t => t
  | GoTime _ => zeroTime
  end.

Definition uint32 (z : Z) : Z := z mod 2 ^ 32.
Definition uint64 (z : Z) : Z := z mod 2 ^ 64.

(** ** Package [repository]: the Cypher queries

    Each function is one managed write or read transaction; [now] is the
    value of [datetime()] in that transaction.  A query that raises an
    error leaves the graph as it was. *)

Module repository.

(** [time.Format(time.RFC3339)]: whole seconds. *)
Definition rfc3339 (t : Time) : Time := t / 1000 * 1000.

Definition default_trust (created : Time) : TrustNode :=
  {| score := 500; verification_score := 200; dispute_penalty := 0;
     sla_score := 100; network_score := 200; t_updated_at := created;
     verified_outcomes := 0; dispute_rate := 0; t_version := 1 |}.

Definition default_wallet (now created : Time) : WalletNode :=
  {| available := 0; locked := 0; expires_at := now + P30D;
     w_version := 1; w_updated_at := created |}.

(** [CREATE (i:Identity ...)], the [SPAWNED] edge when the parent
    matches (the new node is already visible to that match), the
    default trust score and the empty wallet.  A second node with the
    same [did] violates the constraint [identity_did]. *)
Definition CreateIdentity (now : Time) (id : UnifiedID) : M unit := fun s =>
  match s !! DID id with
  | Some _ => (Err ErrDatabase, s)
  | None =>
      let created := rfc3339 (CreatedAt id) in
      let parent :=
        match ParentDID id with
        | Some p =>
            if decide (p = DID id) then Some p
            else match s !! p with Some _ => Some p | None => None end
        | None => None
        end in
      (Ok (), <[DID id := {| entity_type := EntityType_ id;
                             created_at := created;
                             public_key := PublicKey id;
                             spawned_by := parent;
                             trust := default_trust created;
                             wallet := default_wallet now created |}]> s)
  end.

Definition GetIdentity (did : string) : M UnifiedID := fun s =>
  match s !! did with
  | Some n =>
      (Ok {| DID := did; EntityType_ := entity_type n;
             ParentDID := spawned_by n;
             CreatedAt := local_date_time (delivered (created_at n));
             PublicKey := public_key n |}, s)
  | None => (Err ErrIdentityNotFound, s)
  end.

Definition read_trust (t : TrustNode) : TrustScore :=
  {| Score := uint32 (score t);
     Components :=
       {| VerificationScore := uint32 (verification_score t);
          DisputePenalty := uint32 (dispute_penalty t);
          SLAScore := uint32 (sla_score t);
          NetworkScore := uint32 (network_score t) |};
     UpdatedAt := local_date_time (delivered (t_updated_at t));
     VerifiedOutcomes := uint64 (verified_outcomes t);
     DisputeRate := dispute_rate t;
     Version := uint64 (t_version t) |}.

Definition GetTrustScore (did : string) : M TrustScore := fun s =>
  match s !! did with
  | Some n => (Ok (read_trust (trust n)), s)
  | None => (Err ErrTrustNotFound, s)
  end.

(** [WHERE t.version = $expected_version SET ... t.version = t.version + 1];
    no row returned is reported as a concurrent modification. *)
Definition UpdateTrustScore (now : Time) (did : string) (update : TrustScore)
  : M unit := fun s =>
  match s !! did with
  | Some n =>
      let t := trust n in
      if t_version t =? Version update then
        match cy_add (t_version t) 1 with
        | Some v' =>
            (Ok (), <[did := with_trust n
               {| score := Score update;
                  verification_score := VerificationScore (Components update);
                  dispute_penalty := DisputePenalty (Components update);
                  sla_score := SLAScore (Components update);
                  network_score := NetworkScore (Components update);
                  t_updated_at := now;
                  verified_outcomes := VerifiedOutcomes update;
                  dispute_rate := DisputeRate update;
                  t_version := v' |}]> s)
        | None => (Err ErrDatabase, s)
        end
      else (Err ErrTrustConcurrent, s)
  | None => (Err ErrTrustConcurrent, s)
  end.

(** The [SET] items of the verification query, applied in order: the
    score is computed from the verification and SLA scores just set. *)
Definition record_outcome (now : Time) (passed : bool) (latencyMs : Z)
    (t : TrustNode) : option TrustNode :=
  outcomes ← cy_add (verified_outcomes t) 1;
  version ← cy_add (t_version t) 1;
  verification ←
    (if passed
     then if verification_score t <? 400
          then cy_add (verification_score t) 1 else Some 400
     else if 0 <? verification_score t
          then cy_sub (verification_score t) 2 else Some 0);
  sla ←
    (if latencyMs <=? 2000
     then if sla_score t <? 200 then cy_add (sla_score t) 1 else Some 200
     else if 0 <? sla_score t then cy_sub (sla_score t) 1 else Some 0);
  a ← cy_add verification sla;
  b ← cy_add a (network_score t);
  total ← cy_sub b (dispute_penalty t);
  Some {| score := total;
          verification_score := verification;
          dispute_penalty := dispute_penalty t;
          sla_score := sla;
          network_score := network_score t;
          t_updated_at := now;
          verified_outcomes := outcomes;
          dispute_rate := dispute_rate t;
          t_version := version |}.

(** No version is presented and the returned rows are not inspected:
    an unknown [did] matches nothing and the call still succeeds. *)
Definition RecordVerificationOutcome (now : Time) (did : string)
    (passed : bool) (latencyMs : Z) : M unit := fun s =>
  match s !! did with
  | Some n =>
      match record_outcome now passed latencyMs (trust n) with
      | Some t' => (Ok (), <[did := with_trust n t']> s)
      | None => (Err ErrDatabase, s)
      end
  | None => (Ok (), s)
  end.

(** The row of [GetHCWallet] as the Go value.  The two temporal
    properties arrive as [time.Time], so neither assertion holds and
    [ExpiresAt] and [UpdatedAt] keep the zero time. *)
Definition read_wallet (did : string) (w : WalletNode) : HCWallet :=
  {| OwnerDID := did;
     Available := ofDouble (available w);
     Locked := ofDouble (locked w);
     ExpiresAt := local_date_time (delivered (expires_at w));
     WVersion := uint64 (w_version w);
     WUpdatedAt := local_date_time (delivered (w_updated_at w)) |}.

Definition GetHCWallet (did : string) : M HCWallet := fun s =>
  match s !! did with
  | Some n => (Ok (read_wallet did (wallet n)), s)
  | None => (Err ErrWalletNotFound, s)
  end.

(** [WHERE w.version = $expected_version AND toFloat(w.available) >= $amount
    AND w.expires_at > datetime()]; no row returned is an error. *)
Definition LockHC (now : Time) (did : string) (amount : Decimal) (version : Z)
  : M unit := fun s =>
  let amountFloat := Float64 amount in
  match s !! did with
  | Some n =>
      let w := wallet n in
      if (w_version w =? version)
         && PrimFloat.leb amountFloat (available w)
         && (now <? expires_at w)
      then
        match cy_add (w_version w) 1 with
        | Some v' =>
            (Ok (), <[did := with_wallet n
               {| available := (available w - amountFloat)%float;
                  locked := (locked w + amountFloat)%float;
                  expires_at := expires_at w;
                  w_version := v';
                  w_updated_at := now |}]> s)
        | None => (Err ErrDatabase, s)
        end
      else (Err ErrInsufficientOrConcurrent, s)
  | None => (Err ErrInsufficientOrConcurrent, s)
  end.

(** [WHERE toFloat(w.locked) >= $amount]; the returned rows are only
    consumed, so a query that matched nothing is still a success. *)
Definition ReleaseHC (now : Time) (did : string) (amount : Decimal)
  : M unit := fun s =>
  let amountFloat := Float64 amount in
  match s !! did with
  | Some n =>
      let w := wallet n in
      if PrimFloat.leb amountFloat (locked w) then
        match cy_add (w_version w) 1 with
        | Some v' =>
            (Ok (), <[did := with_wallet n
               {| available := available w;
                  locked := (locked w - amountFloat)%float;
                  expires_at := expires_at w;
                  w_version := v';
                  w_updated_at := now |}]> s)
        | None => (Err ErrDatabase, s)
        end
      else (Ok (), s)
  | None => (Ok (), s)
  end.

Definition RefundHC (now : Time) (did : string) (amount : Decimal)
  : M unit := fun s =>
  let amountFloat := Float64 amount in
  match s !! did with
  | Some n =>
      let w := wallet n in
      if PrimFloat.leb amountFloat (locked w) then
        match cy_add (w_version w) 1 with
        | Some v' =>
            (Ok (), <[did := with_wallet n
               {| available := (available w + amountFloat)%float;
                  locked := (locked w - amountFloat)%float;
                  expires_at := expires_at w;
                  w_version := v';
                  w_updated_at := now |}]> s)
        | None => (Err ErrDatabase, s)
        end
      else (Ok (), s)
  | None => (Ok (), s)
  end.

Definition CreditHC (now : Time) (did : string) (amount : Decimal)
  : M unit := fun s =>
  let amountFloat := Float64 amount in
  match s !! did with
  | Some n =>
      let w := wallet n in
      match cy_add (w_version w) 1 with
      | Some v' =>
          (Ok (), <[did := with_wallet n
             {| available := (available w + amountFloat)%float;
                locked := locked w;
                expires_at := if expires_at w <? now + P30D
                              then now + P30D else expires_at w;
                w_version := v';
                w_updated_at := now |}]> s)
      | None => (Err ErrDatabase, s)
      end
  | None => (Ok (), s)
  end.

(** The [did]s on the [SPAWNED] path that ends in [did], from the
    identity without a spawner down to [did] itself.  An identity has
    at most one incoming [SPAWNED] edge (it is created with the
    identity), so the path is found by walking the edges backward. *)
Fixpoint spawn_path (fuel : nat) (s : Store) (did : string)
  : option (list string) :=
  match fuel with
  | O => None
  | S fuel' =>
      match s !! did with
      | None => None
      | Some n =>
          match spawned_by n with
          | None => Some [did]
          | Some p => (λ l, l ++ [did]) <$> spawn_path fuel' s p
          end
      end
  end.

(** [nodes(path)] and [length(path)] of the path from the root. *)
Definition GetAgentLineage (did : string) : M AgentLineage := fun s =>
  match s !! did, spawn_path (S (size s)) s did with
  | Some n, Some path =>
      (Ok {| AgentDID := did;
             LParentDID := spawned_by n;
             RootDID := List.hd did path;
             Depth := Z.of_nat (length path) - 1;
             SpawnedAt := local_date_time (delivered (created_at n));
             Ancestors := path |}, s)
  | _, _ => (Err ErrLineageNotFound, s)
  end.

(** The [switch] on the stored [entity_type] in [GetIdentity] and
    [GetSpawnedAgents]: a string it does not list leaves the zero value.
    The graph above keeps the value this reads from the property that
    [CreateIdentity] wrote with [EntityType.String]. *)
Definition parse_entity_type (stored : string) : EntityType :=
  if decide (stored = "human") then EntityTypeHuman
  else if decide (stored = "agent") then EntityTypeAgent
  else if decide (stored = "organization") then EntityTypeOrganization
  else EntityTypeUnspecified.

(** [MATCH (parent:Identity {did: $did})-[:SPAWNED]->(child:Identity)]:
    one row per spawned identity, in no particular order (here the
    order in which the map enumerates its nodes); every row gets the
    queried [did] as parent.  No row is not an error. *)
Definition GetSpawnedAgents (did : string) : M (list UnifiedID) := fun s =>
  match s !! did with
  | Some _ =>
      (Ok ((λ row : string * Node,
              {| DID := row.1; EntityType_ := entity_type row.2;
                 ParentDID := Some did;
                 CreatedAt := local_date_time (delivered (created_at row.2));
                 PublicKey := public_key row.2 |})
             <$> filter (λ row : string * Node, spawned_by row.2 = Some did)
                   (map_to_list s)), s)
  | None => (Ok [], s)
  end.

End repository.

(** ** [encoding/base64] *)

Module base64.

(** The alphabet of [base64.RawURLEncoding]. *)
Definition encodeURL : list ascii :=
  list_ascii_of_string
    "ABCDEFGHIJKLMNOPQRSTUVWXYZabcdefghijklmnopqrstuvwxyz0123456789-_".

Definition digit (i : Z) : ascii := nth (Z.to_nat i) encodeURL "A"%char.

Definition byte_value (b : Byte.byte) : Z := Z.of_N (Byte.to_N b).

(** [Encoding.Encode] without padding: three bytes make the 24-bit
    value [b0<<16 | b1<<8 | b2], whose digits are [val>>18&0x3F],
    [val>>12&0x3F], [val>>6&0x3F] and [val&0x3F]; a last group of one
    or two bytes gives the first two or three of them. *)
Fixpoint encode (src : list Byte.byte) : list ascii :=
  match src with
  | [] => []
  | [a] =>
      let val := byte_value a * 65536 in
      [digit (val / 262144 mod 64); digit (val / 4096 mod 64)]
  | [a; b] =>
      let val := byte_value a * 65536 + byte_value b * 256 in
      [digit (val / 262144 mod 64); digit (val / 4096 mod 64);
       digit (val / 64 mod 64)]
  | a :: b :: c :: rest =>
      let val := byte_value a * 65536 + byte_value b * 256 + byte_value c in
      digit (val / 262144 mod 64) :: digit (val / 4096 mod 64)
      :: digit (val / 64 mod 64) :: digit (val mod 64) :: encode rest
  end.

Definition EncodeToString (src : list Byte.byte) : string :=
  string_of_list_ascii (encode src).

End base64.

(** ** Package [service]: business logic *)

(** The two clocks a request observes: [time.Now()] of the service
    process and [datetime()] of the database.  One request is short with
    respect to every duration the code compares, so the readings of one
    clock within a request are identified. *)
Record Clock := { go_now : Time; db_now : Time }.

Module service.

(** [uint32(float64(x) * domain.InheritedTrust)]. *)
Definition scale_component (x : Z) : Z :=
  uint32_of_float (float64_of_uint32 x * InheritedTrust)%float.

Definition inheritParentTrust (clk : Clock) (childDID parentDID : string)
  : M unit :=
  do parentTrust <- repository.GetTrustScore parentDID;
  let inheritedTau := InheritedTauForChild parentTrust in
  let inheritedScore :=
    uint32_of_float (inheritedTau * float64_of_uint32 MaxScore)%float in
  do childTrust <- repository.GetTrustScore childDID;
  repository.UpdateTrustScore (db_now clk) childDID
    {| Score := inheritedScore;
       Components :=
         {| VerificationScore :=
              scale_component (VerificationScore (Components parentTrust));
            DisputePenalty := DisputePenalty (Components childTrust);
            SLAScore := SLAScore (Components childTrust);
            NetworkScore :=
              scale_component (NetworkScore (Components parentTrust)) |};
       UpdatedAt := UpdatedAt childTrust;
       VerifiedOutcomes := VerifiedOutcomes childTrust;
       DisputeRate := DisputeRate childTrust;
       Version := Version childTrust |}.

(** The key pair is generated inside the call; the model receives the
    public key and the [did:key] derived from it. *)
Definition CreateIdentity (clk : Clock) (did : string)
    (publicKey : list Byte.byte) (entityType : EntityType)
    (parentDID : option string) : M UnifiedID :=
  let identity :=
    {| DID := did; EntityType_ := entityType; ParentDID := parentDID;
       CreatedAt := go_now clk; PublicKey := publicKey |} in
  do _ <- repository.CreateIdentity (db_now clk) identity;
  match parentDID with
  | Some p =>
      (* a failure is printed as a warning and dropped *)
      fun s => (Ok identity, snd (inheritParentTrust clk did p s))
  | None => ret identity
  end.

Definition GetIdentity := repository.GetIdentity.
Definition GetTrustScore := repository.GetTrustScore.
Definition GetHCWallet := repository.GetHCWallet.
Definition GetAgentLineage := repository.GetAgentLineage.

Definition RecordVerificationOutcome (clk : Clock) (did : string)
    (passed : bool) (latencyMs : Z) : M unit :=
  repository.RecordVerificationOutcome (db_now clk) did passed latencyMs.

Definition LockHCForEscrow (clk : Clock) (did : string) (amount : Decimal)
  : M unit :=
  do wallet <- repository.GetHCWallet did;
  if IsExpired (go_now clk) wallet then fail ErrWalletExpired
  else if negb (CanLock (go_now clk) wallet amount)
       then fail ErrInsufficientBalance
       else repository.LockHC (db_now clk) did amount (WVersion wallet).

Definition ReleaseHCFromEscrow (clk : Clock) (did : string) (amount : Decimal)
  : M unit := repository.ReleaseHC (db_now clk) did amount.

Definition RefundHCFromEscrow (clk : Clock) (did : string) (amount : Decimal)
  : M unit := repository.RefundHC (db_now clk) did amount.

Definition CreditHC (clk : Clock) (did : string) (amount : Decimal)
  : M unit := repository.CreditHC (db_now clk) did amount.

(** [generateDIDKey]: the multicodec prefix 0xed 0x01, then the key,
    in unpadded base64url after ["did:key:z"]. *)
Definition generateDIDKey (publicKey : list Byte.byte) : string :=
  ("did:key:z" ++ base64.EncodeToString (Byte.xed :: Byte.x01 :: publicKey))%string.

(** [CreateIdentity] for the key pair that [ed25519.GenerateKey]
    returned: the [did] is derived from the public key. *)
Definition CreateIdentityFromKey (clk : Clock) (publicKey : list Byte.byte)
    (entityType : EntityType) (parentDID : option string) : M UnifiedID :=
  CreateIdentity clk (generateDIDKey publicKey) publicKey entityType parentDID.

Definition GetSpawnedAgents := repository.GetSpawnedAgents.

Definition CalculateDiscount (did : string) : M float :=
  do trust <- repository.GetTrustScore did;
  ret (DiscountRate trust).

(** What [VerifyDIDSignature] returns: the verdict, the error of the
    lookup, or "invalid public key length". *)
Inductive signature_check :=
| SigVerdict (valid : bool)
| SigLookupFailed (e : error)
| SigInvalidKeyLength.

Definition PublicKeySize : nat := 32.

Section Signatures.

(** [ed25519.Verify publicKey message sig]. *)
Variable Verify : list Byte.byte → list Byte.byte → list Byte.byte → bool.

Definition VerifyDIDSignature (did : string) (message signature : list Byte.byte)
  : Store → signature_check * Store := fun s =>
  match repository.GetIdentity did s with
  | (Err e, s') => (SigLookupFailed e, s')
  | (Ok identity, s') =>
      if decide (length (PublicKey identity) = PublicKeySize)
      then (SigVerdict (Verify (PublicKey identity) message signature), s')
      else (SigInvalidKeyLength, s')
  end.

End Signatures.

End service.

(** ** Package [grpc]: the handlers *)

Module grpc.

Inductive code := InvalidArgument | NotFound | FailedPrecondition | Internal.

(** A response, or a status with its code and the error it reports. *)
Inductive reply (A : Type) :=
| Reply (a : A)
| Status (c : code) (cause : option error).
Arguments Reply {A} a.
Arguments Status {A} c cause.

Definition H (A : Type) : Type := Store → reply A * Store.

(** Runs a service call; an error becomes a status with code [c]. *)
Definition call {A B} (c : code) (m : M A) (k : A → H B) : H B :=
  fun s => match m s with
           | (Ok a, s') => k a s'
           | (Err e, s') => (Status c (Some e), s')
           end.

Definition reject {A} (c : code) : H A := fun s => (Status c None, s).
Definition respond {A} (a : A) : H A := fun s => (Reply a, s).

Definition empty (s : string) : bool := bool_decide (s = ""%string).

(** The checks shared by the wallet handlers: [did] and [amount] are
    present and the amount parses. *)
Definition with_amount {A} (did amount : string) (k : Decimal → H A) : H A :=
  if empty did then reject InvalidArgument
  else if empty amount then reject InvalidArgument
  else match NewFromString amount with
       | None => reject InvalidArgument
       | Some a => k a
       end.

Definition CreditWallet (clk : Clock) (did amount : string) : H HCWallet :=
  with_amount did amount (fun amount =>
    if LessThanOrEqual amount Zero then reject InvalidArgument
    else
      call Internal (service.CreditHC clk did amount) (fun _ =>
      call Internal (service.GetHCWallet did) respond)).

Definition DebitWallet (clk : Clock) (did amount : string) : H HCWallet :=
  with_amount did amount (fun amount =>
    if LessThanOrEqual amount Zero then reject InvalidArgument
    else
      call FailedPrecondition (service.LockHCForEscrow clk did amount) (fun _ =>
      call Internal (service.ReleaseHCFromEscrow clk did amount) (fun _ =>
      call Internal (service.GetHCWallet did) respond))).

Definition LockWallet (clk : Clock) (did amount : string) : H HCWallet :=
  with_amount did amount (fun amount =>
    call FailedPrecondition (service.LockHCForEscrow clk did amount) (fun _ =>
    call Internal (service.GetHCWallet did) respond)).

Definition ReleaseWallet (clk : Clock) (did amount : string)
    (targetDid : option string) : H HCWallet :=
  with_amount did amount (fun amount =>
    let transfer target :=
      call Internal (service.ReleaseHCFromEscrow clk did amount) (fun _ =>
      call Internal (service.CreditHC clk target amount) (fun _ =>
      call Internal (service.GetHCWallet did) respond)) in
    let refund :=
      call Internal (service.RefundHCFromEscrow clk did amount) (fun _ =>
      call Internal (service.GetHCWallet did) respond) in
    match targetDid with
    | Some target => if empty target then refund else transfer target
    | None => refund
    end).

(** The verification update carries only the outcome; the latency
    passed on is always 0. *)
Definition UpdateTrustScore (clk : Clock) (did : string)
    (verificationUpdate : option bool) : H TrustScore :=
  if empty did then reject InvalidArgument
  else
    let record k :=
      match verificationUpdate with
      | Some success =>
          call Internal (service.RecordVerificationOutcome clk did success 0)
               (fun _ => k)
      | None => k
      end in
    record (call Internal (service.GetTrustScore did) respond).

Record ResolveLineageResponse := {
  Lineage : list UnifiedID;
  TrustInheritance : list float;
}.

(** The loop over [lineage.Ancestors]: an ancestor that cannot be read
    is skipped, without advancing the factor. *)
Fixpoint add_ancestors (s : Store) (ancestors : list string)
    (ids : list UnifiedID) (factors : list float) (inheritanceFactor : float)
  : ResolveLineageResponse :=
  match ancestors with
  | [] => {| Lineage := ids; TrustInheritance := factors |}
  | ancestorDID :: rest =>
      match service.GetIdentity ancestorDID s with
      | (Ok ancestor, _) =>
          add_ancestors s rest (ids ++ [ancestor])
            (factors ++ [inheritanceFactor])
            (inheritanceFactor * InheritedTrust)%float
      | (Err _, _) => add_ancestors s rest ids factors inheritanceFactor
      end
  end.

Definition ResolveLineage (did : string) : H ResolveLineageResponse :=
  if empty did then reject InvalidArgument
  else
    call NotFound (service.GetAgentLineage did) (fun lineage =>
    call Internal (service.GetIdentity did) (fun currentIdentity => fun s =>
      (Reply (add_ancestors s (Ancestors lineage)
                [currentIdentity] [1%float] InheritedTrust), s))).

(** The generated enumeration [EntityType] of the protocol; a message
    may carry a number that names no value. *)
Inductive ProtoEntityType :=
| EntityType_ENTITY_TYPE_UNSPECIFIED
| EntityType_ENTITY_TYPE_HUMAN
| EntityType_ENTITY_TYPE_AGENT
| EntityType_ENTITY_TYPE_ORGANIZATION
| EntityType_unrecognized (number : Z).

Definition protoToEntityType (et : ProtoEntityType) : EntityType :=
  match et with
  | EntityType_ENTITY_TYPE_HUMAN => EntityTypeHuman
  | EntityType_ENTITY_TYPE_AGENT => EntityTypeAgent
  | EntityType_ENTITY_TYPE_ORGANIZATION => EntityTypeOrganization
  | _ => EntityTypeUnspecified
  end.

Definition entityTypeToProto (et : EntityType) : ProtoEntityType :=
  match et with
  | EntityTypeHuman => EntityType_ENTITY_TYPE_HUMAN
  | EntityTypeAgent => EntityType_ENTITY_TYPE_AGENT
  | EntityTypeOrganization => EntityType_ENTITY_TYPE_ORGANIZATION
  | EntityTypeUnspecified => EntityType_ENTITY_TYPE_UNSPECIFIED
  end.

Record CreateUnifiedIDResponse := {
  UnifiedId : UnifiedID;
  RTrustScore : TrustScore;
  RWallet : HCWallet;
}.

(** [CreateUnifiedID], for the key the service generates in the call. *)
Definition CreateUnifiedID (clk : Clock) (publicKey : list Byte.byte)
    (entityType : ProtoEntityType) (parentDid : option string)
  : H CreateUnifiedIDResponse :=
  match entityType with
  | EntityType_ENTITY_TYPE_UNSPECIFIED => reject InvalidArgument
  | _ =>
      call Internal
        (service.CreateIdentityFromKey clk publicKey
           (protoToEntityType entityType) parentDid) (fun identity =>
      call Internal (service.GetTrustScore (DID identity)) (fun trustScore =>
      call Internal (service.GetHCWallet (DID identity)) (fun wallet =>
      respond {| UnifiedId := identity; RTrustScore := trustScore;
                 RWallet := wallet |})))
  end.

Definition GetUnifiedID (did : string) : H UnifiedID :=
  if empty did then reject InvalidArgument
  else call NotFound (service.GetIdentity did) respond.

Definition GetTrustScore (did : string) : H TrustScore :=
  if empty did then reject InvalidArgument
  else call NotFound (service.GetTrustScore did) respond.

Definition GetWallet (did : string) : H HCWallet :=
  if empty did then reject InvalidArgument
  else call NotFound (service.GetHCWallet did) respond.

(** [VerifySignature]: every failure of the service call, an unknown
    [did] included, is reported as [Internal]. *)
Definition VerifySignature
    (Verify : list Byte.byte → list Byte.byte → list Byte.byte → bool)
    (did : string) (message signature : list Byte.byte) : H bool :=
  if empty did then reject InvalidArgument
  else if decide (length message = O) then reject InvalidArgument
  else if decide (length signature = O) then reject InvalidArgument
  else fun s =>
    match service.VerifyDIDSignature Verify did message signature s with
    | (service.SigVerdict valid, s') => (Reply valid, s')
    | (service.SigLookupFailed e, s') => (Status Internal (Some e), s')
    | (service.SigInvalidKeyLength, s') => (Status Internal None, s')
    end.

End grpc.

(** ** Package [config] *)

Module config.

Record ServerConfig := {
  Host : string;
  Port : Z;
  MaxRecvMsgSize : Z;
  MaxSendMsgSize : Z;
  ShutdownTimeout : Z;       (* nanoseconds *)
}.

Record Neo4jConfig := {
  URI : string;
  Username : string;
  Password : string;
  Database : string;
}.

Record ServiceConfig := {
  InitialHCBalance : string;
  WalletExpiryDays : Z;
  EnableTrustInheritance : bool;
  DefaultTrustScore : Z;     (* uint32 *)
}.

Record Config := {
  Server : ServerConfig;
  Neo4j : Neo4jConfig;
  Service : ServiceConfig;
}.

(** The environment of the process: [os.Getenv] is the empty string for
    a variable that is not set. *)
Definition Getenv (env : gmap string string) (key : string) : string :=
  default ""%string (env !! key).

(** [strconv.Atoi]: an optionally signed run of decimal digits within
    the range of [int]. *)
Definition Atoi (value : string) : option Z :=
  n ← decimal.parse_int (list_ascii_of_string value);
  if in_int64 n then Some n else None.

(** [strconv.ParseBool]. *)
Definition ParseBool (value : string) : option bool :=
  if bool_decide (value ∈ ["1"; "t"; "T"; "TRUE"; "true"; "True"]%string)
  then Some true
  else if bool_decide (value ∈ ["0"; "f"; "F"; "FALSE"; "false"; "False"]%string)
  then Some false
  else None.

Definition getEnv (env : gmap string string) (key defaultValue : string) : string :=
  let value := Getenv env key in
  if bool_decide (value = ""%string) then defaultValue else value.

Definition getEnvInt (env : gmap string string) (key : string) (defaultValue : Z) : Z :=
  let value := Getenv env key in
  if bool_decide (value = ""%string) then defaultValue
  else match Atoi value with Some intVal => intVal | None => defaultValue end.

Definition getEnvBool (env : gmap string string) (key : string)
    (defaultValue : bool) : bool :=
  let value := Getenv env key in
  if bool_decide (value = ""%string) then defaultValue
  else match ParseBool value with Some boolVal => boolVal | None => defaultValue end.

(** A product of two [int64], wrapped. *)
Definition int64_mul (a b : Z) : Z := (a * b + 2 ^ 63) mod 2 ^ 64 - 2 ^ 63.

Definition Second : Z := 1000000000.

(** [Load]: [None] is the error "NEO4J_PASSWORD environment variable is
    required". *)
Definition Load (env : gmap string string) : option Config :=
  let cfg :=
    {| Server :=
         {| Host := getEnv env "IDENTITY_SERVER_HOST" "0.0.0.0";
            Port := getEnvInt env "IDENTITY_SERVER_PORT" 50051;
            MaxRecvMsgSize :=
              getEnvInt env "IDENTITY_MAX_RECV_MSG_SIZE" (4 * 1024 * 1024);
            MaxSendMsgSize :=
              getEnvInt env "IDENTITY_MAX_SEND_MSG_SIZE" (4 * 1024 * 1024);
            ShutdownTimeout :=
              int64_mul (getEnvInt env "IDENTITY_SHUTDOWN_TIMEOUT_SECS" 30) Second |};
       Neo4j :=
         {| URI := getEnv env "NEO4J_URI" "bolt://localhost:7687";
            Username := getEnv env "NEO4J_USERNAME" "neo4j";
            Password := getEnv env "NEO4J_PASSWORD" "";
            Database := getEnv env "NEO4J_DATABASE" "neo4j" |};
       Service :=
         {| InitialHCBalance := getEnv env "IDENTITY_INITIAL_HC_BALANCE" "0";
            WalletExpiryDays := getEnvInt env "IDENTITY_WALLET_EXPIRY_DAYS" 30;
            EnableTrustInheritance :=
              getEnvBool env "IDENTITY_ENABLE_TRUST_INHERITANCE" true;
            DefaultTrustScore :=
              uint32 (getEnvInt env "IDENTITY_DEFAULT_TRUST_SCORE" 500) |} |} in
  if bool_decide (Password (Neo4j cfg) = ""%string) then None else Some cfg.

End config.

(** * Properties *)

(** ** Vocabulary of the statements *)

Definition fmax (a b : float) : float := if PrimFloat.ltb a b then b else a.

(** The inherited tau as a function of the parent's score. *)
Definition tau_for_child (z : Z) : float :=
  fmax (float64_of_uint32 z / float64_of_uint32 MaxScore * InheritedTrust)%float
       MinInheritedTau.

(** The score written to the child. *)
Definition score_for_child (z : Z) : Z :=
  uint32_of_float (tau_for_child z * float64_of_uint32 MaxScore)%float.

(** The tau of the child once that score is stored. *)
Definition child_tau (z : Z) : float :=
  (float64_of_uint32 (score_for_child z) / float64_of_uint32 MaxScore)%float.

Definition within (lo x hi : float) : bool :=
  PrimFloat.leb lo x && PrimFloat.leb x hi.

Definition inheritance_ok (z : Z) : bool :=
  within 0.10 (tau_for_child z) 0.30
  && within 0.10 (child_tau z) 0.30
  && (100 <=? score_for_child z) && (score_for_child z <=? 300).

(** The database after a call. *)
Definition after {A} (m : Store → A * Store) (s : Store) : Store := snd (m s).

(** The stored wallet and trust score of an identity, and what the
    service reads from them. *)
Definition wallet_of (did : string) (s : Store) : option WalletNode :=
  wallet <$> s !! did.

Definition trust_of (did : string) (s : Store) : option TrustNode :=
  trust <$> s !! did.

Definition wallet_read (did : string) (s : Store) : option HCWallet :=
  repository.read_wallet did <$> wallet_of did s.

Definition trust_read (did : string) (s : Store) : option TrustScore :=
  repository.read_trust <$> trust_of did s.

Definition total_of (did : string) (s : Store) : option Decimal :=
  Total <$> wallet_read did s.

Definition wallet_version_of (did : string) (s : Store) : option Z :=
  w_version <$> wallet_of did s.

Definition trust_version_of (did : string) (s : Store) : option Z :=
  t_version <$> trust_of did s.

(** A caller that read an aggregate at version [seen] and whose write
    reaches the database at another version is turned away, and the
    database stays as it is. *)
Definition rejects_stale (seen : Z) (stored : option Z) (op : M unit)
    (s : Store) : Prop :=
  stored ≠ Some seen → ∃ e, op s = (Err e, s).

(** A write that takes no version either leaves the database as it was
    or succeeds and moves the version to [next]. *)
Definition unversioned (version_of : Store → option Z) (next : Z)
    (op : M unit) (s : Store) : Prop :=
  ∀ r s', op s = (r, s') → s' = s ∨ (r = Ok () ∧ version_of s' = Some next).

(** What holds of the writes to the aggregates of the identity [did],
    stored as [n]. *)
Definition version_discipline (now : Time) (did : string) (s : Store)
    (n : Node) : Prop :=
  (∀ update,
     (t_version (trust n) ≠ Version update →
      repository.UpdateTrustScore now did update s = (Err ErrTrustConcurrent, s))
     ∧ (∀ s', repository.UpdateTrustScore now did update s = (Ok (), s') →
              t_version (trust n) = Version update
              ∧ trust_version_of did s' = Some (t_version (trust n) + 1)))
  ∧ (∀ amount version,
       (w_version (wallet n) ≠ version →
        repository.LockHC now did amount version s
        = (Err ErrInsufficientOrConcurrent, s))
       ∧ (∀ s', repository.LockHC now did amount version s = (Ok (), s') →
                w_version (wallet n) = version
                ∧ wallet_version_of did s' = Some (w_version (wallet n) + 1)))
  ∧ (∀ amount,
       unversioned (wallet_version_of did) (w_version (wallet n) + 1)
         (repository.ReleaseHC now did amount) s
       ∧ unversioned (wallet_version_of did) (w_version (wallet n) + 1)
           (repository.RefundHC now did amount) s
       ∧ unversioned (wallet_version_of did) (w_version (wallet n) + 1)
           (repository.CreditHC now did amount) s)
  ∧ (∀ passed latency,
       unversioned (trust_version_of did) (t_version (trust n) + 1)
         (repository.RecordVerificationOutcome now did passed latency) s).

Definition clamp (z : Z) : Z := Z.max 0 (Z.min MaxScore z).

(** The verification and SLA components after an outcome, for
    components within their bounds. *)
Definition next_verification (passed : bool) (v : Z) : Z :=
  if passed then Z.min 400 (v + 1)
  else if v =? 1 then -1 else Z.max 0 (v - 2).

Definition next_sla (latency : Z) (sl : Z) : Z :=
  if latency <=? 2000 then Z.min 200 (sl + 1) else Z.max 0 (sl - 1).

Definition after_outcome (now : Time) (passed : bool) (latency : Z)
    (t : TrustNode) : TrustNode :=
  let v := next_verification passed (verification_score t) in
  let sl := next_sla latency (sla_score t) in
  {| score := v + sl + network_score t - dispute_penalty t;
     verification_score := v;
     dispute_penalty := dispute_penalty t;
     sla_score := sl;
     network_score := network_score t;
     t_updated_at := now;
     verified_outcomes := verified_outcomes t + 1;
     dispute_rate := dispute_rate t;
     t_version := t_version t + 1 |}.

Definition component_sum (t : TrustNode) : Z :=
  verification_score t + sla_score t + network_score t - dispute_penalty t.

Definition components_in_bounds (t : TrustNode) : Prop :=
  0 <= verification_score t <= 400
  ∧ 0 <= dispute_penalty t <= 200
  ∧ 0 <= sla_score t <= 200
  ∧ 0 <= network_score t <= 200.

(** The databases the operations of the service produce.  The [did] of
    a new identity is derived from a key generated for it, so it is not
    the [did] of its own spawner. *)
Inductive reachable : Store → Prop :=
| reach_empty : reachable ∅
| reach_create clk did key kind spawner s :
    reachable s →
    spawner ≠ Some did →
    reachable (after (service.CreateIdentity clk did key kind spawner) s)
| reach_outcome clk did passed latency s :
    reachable s →
    reachable (after (service.RecordVerificationOutcome clk did passed latency) s)
| reach_lock clk did amount s :
    reachable s → reachable (after (service.LockHCForEscrow clk did amount) s)
| reach_release clk did amount s :
    reachable s → reachable (after (service.ReleaseHCFromEscrow clk did amount) s)
| reach_refund clk did amount s :
    reachable s → reachable (after (service.RefundHCFromEscrow clk did amount) s)
| reach_credit clk did amount s :
    reachable s → reachable (after (service.CreditHC clk did amount) s).

(** The trust score of a spawned child in exact arithmetic: 30% of the
    parent's score and at least 100, 30% of the parent's verification
    and network components, every fraction cut off; the defaults 0 and
    100 for the dispute penalty and the SLA component. *)
Definition inherited_score (parent_score : Z) : Z :=
  Z.max 100 (3 * parent_score / 10).



(** The parent scores at which 30% of the score is a whole number and
    the binary64 product [score / 1000 * 0.30 * 1000] lies just below
    it. *)
Definition binary64_slips : list Z := [380; 410; 570; 750; 760; 770; 820; 830].




(** [l] lists the spawners above [did], from an identity that was not
    spawned down to [did] itself. *)
Inductive spawn_chain (s : Store) : list string → string → Prop :=
| chain_root did n :
    s !! did = Some n → spawned_by n = None → spawn_chain s [did] did
| chain_step did n p l :
    s !! did = Some n → spawned_by n = Some p → spawn_chain s l p →
    spawn_chain s (l ++ [did]) did.

(** One write to the graph: a node is replaced and keeps its spawner,
    or an identity is added whose spawner, if it has one, is present. *)
Inductive graph_step (s : Store) : Store → Prop :=
| step_update did n n' :
    s !! did = Some n → spawned_by n' = spawned_by n →
    graph_step s (<[did := n']> s)
| step_create did n' :
    s !! did = None →
    (∀ p, spawned_by n' = Some p → is_Some (s !! p)) →
    graph_step s (<[did := n']> s).

(** Every identity has a rank below the number of identities, and a
    spawner is present with a smaller rank than the identity it
    spawned. *)
Definition ranked (rank : string → nat) (s : Store) : Prop :=
  ∀ did n, s !! did = Some n →
    (rank did < size s)%nat
    ∧ ∀ p, spawned_by n = Some p → is_Some (s !! p) ∧ (rank p < rank did)%nat.

(** The [did]s and factors of a lineage response. *)
Definition resolved (did : string) (s : Store) : option (list (string * float)) :=
  match fst (grpc.ResolveLineage did s) with
  | grpc.Reply r => Some (zip (DID <$> grpc.Lineage r) (grpc.TrustInheritance r))
  | grpc.Status _ _ => None
  end.

(** ** Runs of the service

    Every request of these runs is served at the same instant of both
    clocks. *)

Definition clock : Clock := {| go_now := 1000; db_now := 1000 |}.

Definition alice : string := "did:key:zAlice".
Definition bob : string := "did:key:zBob".
Definition kid : string := "did:key:zKid".
Definition root : string := "did:key:zRoot".
Definition parent : string := "did:key:zParent".
Definition agent : string := "did:key:zAgent".

Definition wallet_node (a l : float) (v : Z) : WalletNode :=
  {| available := a; locked := l; expires_at := 2592001000;
     w_version := v; w_updated_at := 1000 |}.

(** Alice's wallet as the service reads it. *)
Definition wallet_view (a l : Decimal) (v : Z) : HCWallet :=
  {| OwnerDID := alice; Available := a; Locked := l;
     ExpiresAt := zeroTime; WVersion := v; WUpdatedAt := zeroTime |}.

Definition trust_node (sc v sl outcomes ver : Z) : TrustNode :=
  {| score := sc; verification_score := v; dispute_penalty := 0;
     sla_score := sl; network_score := 200; t_updated_at := 1000;
     verified_outcomes := outcomes; dispute_rate := 0; t_version := ver |}.

Definition alice_node (t : TrustNode) (w : WalletNode) : Node :=
  {| entity_type := EntityTypeHuman; created_at := 1000; public_key := [];
     spawned_by := None; trust := t; wallet := w |}.

(** Alice's identity is created, with the default trust score and an
    empty wallet that expires in thirty days. *)
Definition opened : Store :=
  after (service.CreateIdentity clock alice [] EntityTypeHuman None) ∅.

(** 10 credited, then 5 of them moved into escrow.  No lock of the
    service succeeds; the escrow is filled by a refund of -5, which the
    handler accepts. *)
Definition credited_10 : Store := after (grpc.CreditWallet clock alice "10") opened.
Definition escrow_5 : Store :=
  after (grpc.ReleaseWallet clock alice "-5" None) credited_10.

Definition with_bob : Store :=
  after (service.CreateIdentity clock bob [] EntityTypeHuman None) escrow_5.

(** 0.1 credited and moved into escrow. *)
Definition locked_all : Store :=
  after (grpc.ReleaseWallet clock alice "-0.1" None)
    (after (grpc.CreditWallet clock alice "0.1") opened).

Definition credited_100 : Store := after (grpc.CreditWallet clock alice "100") opened.

(** 0.9 credited; 0.2 moved into escrow by a refund of -0.2 and
    refunded. *)
Definition credited_09 : Store := after (grpc.CreditWallet clock alice "0.9") opened.
Definition locked_02 : Store :=
  after (grpc.ReleaseWallet clock alice "-0.2" None) credited_09.
Definition refunded_02 : Store :=
  after (grpc.ReleaseWallet clock alice "0.2" None) locked_02.

(** 0.3 credited; 0.1 moved into escrow by a refund of -0.1 and
    refunded. *)
Definition credited_03 : Store := after (grpc.CreditWallet clock alice "0.3") opened.
Definition locked_01 : Store :=
  after (grpc.ReleaseWallet clock alice "-0.1" None) credited_03.
Definition refunded_01 : Store :=
  after (grpc.ReleaseWallet clock alice "0.1" None) locked_01.

(** A root identity spawns [parent], which spawns [agent]. *)
Definition family : Store :=
  after (service.CreateIdentity clock agent [] EntityTypeAgent (Some parent))
    (after (service.CreateIdentity clock parent [] EntityTypeAgent (Some root))
       (after (service.CreateIdentity clock root [] EntityTypeHuman None) ∅)).

Fixpoint repeat_outcome (k : nat) (passed : bool) (s : Store) : Store :=
  match k with
  | O => s
  | S k' =>
      repeat_outcome k' passed
        (after (service.RecordVerificationOutcome clock alice passed 0) s)
  end.

(** Alice's trust score after a hundred failed verifications and one
    passed verification. *)
Definition worn : Store := repeat_outcome 1 true (repeat_outcome 100 false opened).

(** Alice's trust score after 199 passed verifications. *)
Definition nearly_capped : Store := repeat_outcome 199 true opened.

(** One passed verification, then Alice spawns [kid]. *)
Definition praised : Store :=
  after (service.RecordVerificationOutcome clock alice true 0) opened.
Definition spawned : Store :=
  after (service.CreateIdentity clock kid [] EntityTypeAgent (Some alice)) praised.

Definition praised_trust : TrustScore :=
  {| Score := 502;
     Components := {| VerificationScore := 201; DisputePenalty := 0;
                      SLAScore := 101; NetworkScore := 200 |};
     UpdatedAt := zeroTime; VerifiedOutcomes := 1; DisputeRate := 0;
     Version := 2 |}.

Definition trust_800 : TrustScore :=
  {| Score := 800;
     Components := {| VerificationScore := 400; DisputePenalty := 0;
                      SLAScore := 200; NetworkScore := 200 |};
     UpdatedAt := 0; VerifiedOutcomes := 0; DisputeRate := 0; Version := 1 |}.

(** ** Vocabulary of the further properties *)

(** The discount as a function of the score. *)
Definition discount_for (z : Z) : float :=
  let discount :=
    (float64_of_uint32 z / float64_of_uint32 MaxScore * MaxDiscountRate)%float in
  if PrimFloat.ltb MaxDiscountRate discount then MaxDiscountRate else discount.

(** The discount of a score lies in the band of the tier of the score:
    below 0.10 under 500, from 0.10 to below 0.16 under 800, from 0.16
    to 0.20 above. *)
Definition discount_in_band (z : Z) : bool :=
  let d := discount_for z in
  within 0 d MaxDiscountRate
  && (if z <? 500 then PrimFloat.ltb d 0.10
      else if z <? 800 then PrimFloat.leb 0.10 d && PrimFloat.ltb d 0.16
      else PrimFloat.leb 0.16 d).

(** The settings of an environment that holds the database password
    and nothing else. *)
Definition default_config (password : string) : config.Config :=
  {| config.Server :=
       {| config.Host := "0.0.0.0"; config.Port := 50051;
          config.MaxRecvMsgSize := 4194304; config.MaxSendMsgSize := 4194304;
          config.ShutdownTimeout := 30000000000 |};
     config.Neo4j :=
       {| config.URI := "bolt://localhost:7687"; config.Username := "neo4j";
          config.Password := password; config.Database := "neo4j" |};
     config.Service :=
       {| config.InitialHCBalance := "0"; config.WalletExpiryDays := 30;
          config.EnableTrustInheritance := true;
          config.DefaultTrustScore := 500 |} |}.

(** What identifies a node stays, and the versions of its trust score
    and of its wallet do not go down. *)
Definition same_identity (n n' : Node) : Prop :=
  entity_type n' = entity_type n ∧ created_at n' = created_at n
  ∧ public_key n' = public_key n ∧ spawned_by n' = spawned_by n.

Definition node_le (n n' : Node) : Prop :=
  same_identity n n'
  ∧ t_version (trust n) <= t_version (trust n')
  ∧ w_version (wallet n) <= w_version (wallet n').

Definition grows (s s' : Store) : Prop :=
  ∀ did n, s !! did = Some n → ∃ n', s' !! did = Some n' ∧ node_le n n'.

(** The databases that calls of the service lead to from [s]. *)
Inductive evolves (s : Store) : Store → Prop :=
| evolves_refl : evolves s s
| evolves_create clk did key kind spawner s' :
    evolves s s' →
    evolves s (after (service.CreateIdentity clk did key kind spawner) s')
| evolves_outcome clk did passed latency s' :
    evolves s s' →
    evolves s (after (service.RecordVerificationOutcome clk did passed latency) s')
| evolves_lock clk did amount s' :
    evolves s s' → evolves s (after (service.LockHCForEscrow clk did amount) s')
| evolves_release clk did amount s' :
    evolves s s' → evolves s (after (service.ReleaseHCFromEscrow clk did amount) s')
| evolves_refund clk did amount s' :
    evolves s s' → evolves s (after (service.RefundHCFromEscrow clk did amount) s')
| evolves_credit clk did amount s' :
    evolves s s' → evolves s (after (service.CreditHC clk did amount) s').

(** What every trust score and wallet that the service stores satisfy. *)
Definition trust_kept (t : TrustNode) : Prop :=
  -1 <= score t
  ∧ dispute_penalty t = 0
  ∧ dispute_rate t = 0%float
  ∧ 0 <= sla_score t <= 200
  ∧ 0 <= network_score t <= 200
  ∧ -1 <= verification_score t < 2 ^ 32
  ∧ 0 <= verified_outcomes t
  ∧ 1 <= t_version t.

Definition well_kept (n : Node) : Prop :=
  trust_kept (trust n) ∧ 1 <= w_version (wallet n).

Definition all_kept (s : Store) : Prop :=
  ∀ did n, s !! did = Some n → well_kept n.

Definition scale_in_bounds (z : Z) : bool :=
  (0 <=? service.scale_component z) && (service.scale_component z <=? 60).

(** A wallet after a credit of [amount] at the database time [now]. *)
Definition credited (now : Time) (amount : Decimal) (w : WalletNode) : WalletNode :=
  {| available := (available w + Float64 amount)%float;
     locked := locked w;
     expires_at := Z.max (expires_at w) (now + P30D);
     w_version := w_version w + 1;
     w_updated_at := now |}.

(** The node of an identity that has just been created without
    inheritance. *)
Definition fresh_node (clk : Clock) (kind : EntityType) (key : list Byte.byte)
    (spawner : option string) : Node :=
  let created := repository.rfc3339 (go_now clk) in
  {| entity_type := kind; created_at := created; public_key := key;
     spawned_by := spawner;
     trust := repository.default_trust created;
     wallet := repository.default_wallet (db_now clk) created |}.

(** Reading an encoding back, to tell encodings apart: the position of
    a digit in the alphabet, and the bytes of a run of digits. *)
Fixpoint find_digit (c : ascii) (l : list ascii) (i : Z) : Z :=
  match l with
  | [] => i
  | d :: r => if Ascii.eqb c d then i else find_digit c r (i + 1)
  end.

Definition digit_index (c : ascii) : Z := find_digit c base64.encodeURL 0.

Definition to_byte (z : Z) : Byte.byte :=
  default Byte.x00 (Byte.of_N (Z.to_N z)).

Fixpoint decode (l : list ascii) : list Byte.byte :=
  match l with
  | a :: b :: c :: d :: rest =>
      let val := ((digit_index a * 64 + digit_index b) * 64 + digit_index c) * 64
                 + digit_index d in
      to_byte (val / 65536) :: to_byte (val / 256 mod 256)
      :: to_byte (val mod 256) :: decode rest
  | [a; b; c] =>
      let val := (digit_index a * 64 + digit_index b) * 64 + digit_index c in
      [to_byte (val / 1024); to_byte (val / 4 mod 256)]
  | [a; b] => [to_byte ((digit_index a * 64 + digit_index b) / 16)]
  | _ => []
  end.

Definition in_alphabet (i : Z) : bool :=
  bool_decide (base64.digit i ∈ base64.encodeURL).

(** The identities a query for the agents spawned by [did] lists. *)
Definition spawned_agents (did : string) (s : Store) : list UnifiedID :=
  match fst (service.GetSpawnedAgents did s) with
  | Ok agents => agents
  | Err _ => []
  end.

(** Closed goals about these runs are settled by evaluating both sides. *)
Ltac by_evaluation :=
  repeat apply conj;
  lazymatch goal with
  | |- ?a = ?b => exact (@eq_refl _ b <: a = b)
  end.

(** ** Shared lemmas *)

Lemma uint32_of_float_range (f : float) : 0 <= uint32_of_float f < 2 ^ 32.
Proof.
  unfold uint32_of_float. destruct (float_trunc f).
  - apply Z.mod_pos_bound. lia.
  - lia.
Qed.

Lemma uint32_of_float_stable (f : float) :
  uint32 (uint32_of_float f) = uint32_of_float f.
Proof. unfold uint32. apply Z.mod_small, uint32_of_float_range. Qed.

Lemma cy_add_small (a b : Z) :
  - 2 ^ 63 <= a + b < 2 ^ 63 → cy_add a b = Some (a + b).
Proof.
  intros H. unfold cy_add, in_int64.
  destruct (Z.leb_spec (- 2 ^ 63) (a + b)); [|lia].
  destruct (Z.ltb_spec (a + b) (2 ^ 63)); [reflexivity|lia].
Qed.

Lemma cy_sub_small (a b : Z) :
  - 2 ^ 63 <= a - b < 2 ^ 63 → cy_sub a b = Some (a - b).
Proof.
  intros H. unfold cy_sub, in_int64.
  destruct (Z.leb_spec (- 2 ^ 63) (a - b)); [|lia].
  destruct (Z.ltb_spec (a - b) (2 ^ 63)); [reflexivity|lia].
Qed.

Lemma cy_add_inv (a b c : Z) : cy_add a b = Some c → c = a + b.
Proof. unfold cy_add. destruct (in_int64 _); congruence. Qed.

Lemma cy_sub_inv (a b c : Z) : cy_sub a b = Some c → c = a - b.
Proof. unfold cy_sub. destruct (in_int64 _); congruence. Qed.

(** Every integer of a range satisfies a check that holds on the
    enumeration of the range. *)
Lemma range_check (P : Z → bool) (n : nat) :
  forallb P (map Z.of_nat (seq 0 n)) = true →
  ∀ z, 0 <= z < Z.of_nat n → P z = true.
Proof.
  intros Hall z Hz.
  rewrite forallb_forall in Hall. apply Hall.
  apply in_map_iff. exists (Z.to_nat z). split; [lia|].
  apply in_seq. lia.
Qed.

(** ** Trust inheritance *)

Lemma inheritance_ok_upto_1000 :
  forallb inheritance_ok (map Z.of_nat (seq 0 1001)) = true.
Proof. vm_compute. reflexivity. Qed.

Lemma InheritedTauForChild_score (t : TrustScore) :
  InheritedTauForChild t = tau_for_child (Score t).
Proof. reflexivity. Qed.

Lemma inheritance_ok_score (z : Z) :
  0 <= z <= 1000 → inheritance_ok z = true.
Proof.
  intros Hz. apply (range_check inheritance_ok 1001 inheritance_ok_upto_1000).
  lia.
Qed.

(** C9.  For every parent trust score with [score] in [0, 1000], the
    inherited tau is [max (tau * 0.30) 0.10] and lies between 0.10 and
    0.30; so does the tau of the score the child starts with. *)
Theorem inherited_tau_bounds (t : TrustScore) :
  0 <= Score t <= 1000 →
  InheritedTauForChild t = fmax (Tau t * InheritedTrust)%float MinInheritedTau
  ∧ PrimFloat.leb 0.10 (InheritedTauForChild t) = true
  ∧ PrimFloat.leb (InheritedTauForChild t) 0.30 = true
  ∧ PrimFloat.leb 0.10 (child_tau (Score t)) = true
  ∧ PrimFloat.leb (child_tau (Score t)) 0.30 = true.
Proof.
  intros Hz.
  pose proof (inheritance_ok_score (Score t) Hz) as Hok.
  unfold inheritance_ok, within in Hok.
  rewrite InheritedTauForChild_score.
  rewrite !andb_true_iff in Hok.
  destruct Hok as ((((? & ?) & (? & ?)) & _) & _).
  repeat split; try assumption; reflexivity.
Qed.

Lemma inherited_tau_bounds_witness :
  InheritedTauForChild trust_800 = 0.24%float
  ∧ PrimFloat.leb 0.10 (InheritedTauForChild trust_800) = true
  ∧ PrimFloat.leb (InheritedTauForChild trust_800) 0.30 = true.
Proof.
  destruct (inherited_tau_bounds trust_800) as (_ & Hlo & Hhi & _).
  - simpl. lia.
  - split; [reflexivity|]. split; assumption.
Defined.

(** The score written to the child stays between 100 and 300. *)
Lemma score_for_child_bounds (z : Z) :
  0 <= z <= 1000 → 100 <= score_for_child z <= 300.
Proof.
  intros Hz. pose proof (inheritance_ok_score z Hz) as Hok.
  unfold inheritance_ok in Hok. rewrite !andb_true_iff in Hok.
  destruct Hok as ((_ & Hlo) & Hhi). lia.
Qed.








(** The run: Alice's score is 502 after one passed verification, her
    inherited tau times 1000 is 150.6 up to the last bit, and the child
    starts at 150 with the components 60, 0, 100 and 60. *)
Example spawned_at_150 :
  trust_read alice praised = Some praised_trust
  ∧ (InheritedTauForChild praised_trust * float64_of_uint32 MaxScore)%float
    = 150.6%float
  ∧ trust_of kid spawned
    = Some {| score := 150; verification_score := 60; dispute_penalty := 0;
              sla_score := 100; network_score := 60; t_updated_at := 1000;
              verified_outcomes := 0; dispute_rate := 0; t_version := 2 |}.
Proof. by_evaluation. Qed.

(** At the parent scores left out the code stores one less than 30% of
    the score: 122 for a parent at 410, whose 30% is 123. *)
Example binary64_slip_at_410 :
  (score_for_child <$> binary64_slips) = [113; 122; 170; 224; 227; 230; 245; 248]
  ∧ (inherited_score <$> binary64_slips)
    = [114; 123; 171; 225; 228; 231; 246; 249].
Proof. by_evaluation. Qed.


(** ** Verification outcomes *)

Lemma record_outcome_version now passed latency t t' :
  repository.record_outcome now passed latency t = Some t' →
  t_version t' = t_version t + 1
  ∧ verified_outcomes t' = verified_outcomes t + 1.
Proof.
  unfold repository.record_outcome. intros H.
  repeat match type of H with
         | (mbind _ ?m = Some _) =>
             let E := fresh "E" in
             destruct m eqn:E; simpl in H; [|discriminate]
         end.
  injection H as <-. simpl.
  split; eapply cy_add_inv; eassumption.
Qed.

(** A failed outcome on a verification score of 1 stores -1. *)
Lemma failed_outcome_at_one now latency t t' :
  verification_score t = 1 →
  repository.record_outcome now false latency t = Some t' →
  verification_score t' = -1.
Proof.
  unfold repository.record_outcome. intros Hv H. rewrite Hv in H.
  repeat match type of H with
         | (mbind _ ?m = Some _) =>
             let E := fresh "E" in
             destruct m eqn:E; simpl in H; [|discriminate]
         end.
  injection H as <-. reflexivity.
Qed.

(** A passed verification within the latency target on a verification
    score of 399: the component becomes 400, the score is recomputed,
    one more outcome is counted and the version advances by one; one
    more passed verification leaves the component at its cap. *)
Example outcome_at_399 :
  trust_of alice nearly_capped = Some (trust_node 799 399 200 199 200)
  ∧ trust_of alice
      (after (service.RecordVerificationOutcome clock alice true 500) nearly_capped)
    = Some (trust_node 800 400 200 200 201)
  ∧ trust_of alice
      (after (service.RecordVerificationOutcome clock alice true 500)
         (after (service.RecordVerificationOutcome clock alice true 500)
            nearly_capped))
    = Some (trust_node 800 400 200 201 202).
Proof. by_evaluation. Qed.

(** C7.  A failed verification on a verification score of 1 stores -1,
    not 0: the guard of the decrement by 2 is [verification_score > 0].
    The state is reached from a new identity by a hundred failed and
    one passed verification, and the service reads the stored -1 back as
    the unsigned 4294967295. *)
Theorem failed_outcome_at_one_goes_negative :
  trust_of alice worn = Some (trust_node 401 1 200 101 102)
  ∧ fst (service.RecordVerificationOutcome clock alice false 0 worn) = Ok ()
  ∧ trust_of alice (after (service.RecordVerificationOutcome clock alice false 0) worn)
    = Some (trust_node 399 (-1) 200 102 103)
  ∧ VerificationScore
      <$> (Components
             <$> trust_read alice
                   (after (service.RecordVerificationOutcome clock alice false 0)
                      worn))
    = Some 4294967295.
Proof. by_evaluation. Qed.

Lemma family_reachable : reachable family.
Proof.
  unfold family.
  apply reach_create; [apply reach_create; [apply reach_create|]|].
  - apply reach_empty.
  - discriminate.
  - intros [=].
  - intros [=].
Qed.

(** C4, as stated, fails: the trust score of a spawned identity is
    written by the inheritance, which sets the score to 150 next to the
    components 60, 100, 60 and 0, whose clamped sum is 220. *)
Lemma inherited_score_is_not_the_component_sum :
  ¬ (∀ s did t, reachable s → trust_of did s = Some t →
                score t = clamp (component_sum t) ∧ 0 <= score t <= 1000).
Proof.
  intros H.
  assert (Ht : trust_of parent family
               = Some {| score := 150; verification_score := 60;
                         dispute_penalty := 0; sla_score := 100;
                         network_score := 60; t_updated_at := 1000;
                         verified_outcomes := 0; dispute_rate := 0;
                         t_version := 2 |}) by by_evaluation.
  destruct (H _ _ _ family_reachable Ht) as [Hscore _].
  vm_compute in Hscore. discriminate Hscore.
Qed.

(** What a verification outcome stores, for components within their
    bounds and counters that do not overflow. *)
Lemma record_outcome_steps now passed latency t :
  components_in_bounds t →
  0 <= t_version t < 2 ^ 63 - 1 →
  0 <= verified_outcomes t < 2 ^ 63 - 1 →
  repository.record_outcome now passed latency t
  = Some (after_outcome now passed latency t).
Proof.
  intros (Hv & Hd & Hs & Hnw) Hver Hout.
  unfold repository.record_outcome, after_outcome.
  rewrite (cy_add_small (verified_outcomes t) 1) by lia.
  rewrite (cy_add_small (t_version t) 1) by lia.
  simpl.
  assert (Ev : (if passed
                then if verification_score t <? 400
                     then cy_add (verification_score t) 1 else Some 400
                else if 0 <? verification_score t
                     then cy_sub (verification_score t) 2 else Some 0)
               = Some (next_verification passed (verification_score t))).
  { unfold next_verification. destruct passed.
    - destruct (Z.ltb_spec (verification_score t) 400).
      + rewrite cy_add_small by lia. f_equal. lia.
      + f_equal. lia.
    - destruct (Z.ltb_spec 0 (verification_score t)).
      + rewrite cy_sub_small by lia. f_equal.
        destruct (Z.eqb_spec (verification_score t) 1); lia.
      + f_equal. destruct (Z.eqb_spec (verification_score t) 1); lia. }
  assert (Es : (if latency <=? 2000
                then if sla_score t <? 200
                     then cy_add (sla_score t) 1 else Some 200
                else if 0 <? sla_score t
                     then cy_sub (sla_score t) 1 else Some 0)
               = Some (next_sla latency (sla_score t))).
  { unfold next_sla. destruct (latency <=? 2000).
    - destruct (Z.ltb_spec (sla_score t) 200).
      + rewrite cy_add_small by lia. f_equal. lia.
      + f_equal. lia.
    - destruct (Z.ltb_spec 0 (sla_score t)).
      + rewrite cy_sub_small by lia. f_equal. lia.
      + f_equal. lia. }
  rewrite Ev. simpl. rewrite Es. simpl.
  assert (Hv' : -1 <= next_verification passed (verification_score t) <= 400).
  { unfold next_verification. destruct passed; [lia|].
    destruct (verification_score t =? 1); lia. }
  assert (Hs' : 0 <= next_sla latency (sla_score t) <= 200).
  { unfold next_sla. destruct (latency <=? 2000); lia. }
  rewrite cy_add_small by lia. simpl.
  rewrite cy_add_small by lia. simpl.
  rewrite cy_sub_small by lia. reflexivity.
Qed.

(** C4 (amended).  A verification outcome recorded on a trust score
    whose components are within their bounds, other than a failed
    outcome on a verification score of 1, succeeds and stores as score
    exactly verification + sla + network - dispute_penalty of the
    components it has just written, without clamping; the components
    stay within their bounds, the score is at most 1000, and it is at
    least 0 when the dispute penalty does not exceed the network
    score. *)
Theorem outcome_recomputes_score now did passed latency (s : Store) n :
  s !! did = Some n →
  components_in_bounds (trust n) →
  (passed = false → verification_score (trust n) ≠ 1) →
  0 <= t_version (trust n) < 2 ^ 63 - 1 →
  0 <= verified_outcomes (trust n) < 2 ^ 63 - 1 →
  ∃ t',
    repository.RecordVerificationOutcome now did passed latency s
    = (Ok (), <[did := with_trust n t']> s)
    ∧ score t' = component_sum t'
    ∧ components_in_bounds t'
    ∧ score t' <= 1000
    ∧ (dispute_penalty (trust n) <= network_score (trust n) → 0 <= score t').
Proof.
  intros Hn Hb Hslip Hver Hout.
  exists (after_outcome now passed latency (trust n)).
  unfold repository.RecordVerificationOutcome. rewrite Hn.
  rewrite (record_outcome_steps _ _ _ _ Hb Hver Hout).
  split; [reflexivity|].
  destruct Hb as (Hv & Hd & Hs & Hnw).
  assert (Hv' : 0 <= next_verification passed (verification_score (trust n)) <= 400).
  { unfold next_verification. destruct passed; [lia|].
    specialize (Hslip eq_refl).
    destruct (Z.eqb_spec (verification_score (trust n)) 1); [contradiction|lia]. }
  assert (Hs' : 0 <= next_sla latency (sla_score (trust n)) <= 200).
  { unfold next_sla. destruct (latency <=? 2000); lia. }
  unfold component_sum, components_in_bounds, after_outcome. simpl.
  repeat split; lia.
Qed.

Lemma outcome_recomputes_score_witness :
  ∃ t',
    repository.RecordVerificationOutcome 2000 alice false 5000 opened
    = (Ok (), <[alice := with_trust
                  (alice_node (repository.default_trust 1000) (wallet_node 0 0 1))
                  t']> opened)
    ∧ score t' = component_sum t'
    ∧ components_in_bounds t'
    ∧ score t' <= 1000
    ∧ (0 <= 200 → 0 <= score t').
Proof.
  apply (outcome_recomputes_score 2000 alice false 5000 opened
           (alice_node (repository.default_trust 1000) (wallet_node 0 0 1))).
  - by_evaluation.
  - unfold components_in_bounds. simpl. lia.
  - intros _. simpl. lia.
  - simpl. lia.
  - simpl. lia.
Defined.

(** ** Escrow wallet *)

Lemma opened_wallet : wallet_of alice opened = Some (wallet_node 0 0 1).
Proof. by_evaluation. Qed.

Lemma credited_10_wallet : wallet_of alice credited_10 = Some (wallet_node 10 0 2).
Proof. by_evaluation. Qed.

Lemma escrow_5_wallet : wallet_of alice escrow_5 = Some (wallet_node 5 5 3).
Proof. by_evaluation. Qed.

(** A new identity without parent has the default trust score (500 from
    200, 0, 100 and 200, version 1) and an empty wallet at version 1
    that expires thirty days later. *)
Example new_identity_defaults :
  opened !! alice
  = Some (alice_node (trust_node 500 200 100 0 1) (wallet_node 0 0 1))
  ∧ expires_at <$> wallet_of alice opened = Some (db_now clock + P30D).
Proof. by_evaluation. Qed.

(** The wallet the service reads never carries the stored expiry: with
    100 available and thirty days to go in the database, locking 60 is
    refused as expired, at the service and at the two handlers that
    lock, and nothing changes. *)
Example lock_60_of_100 :
  wallet_of alice credited_100 = Some (wallet_node 100 0 2)
  ∧ ExpiresAt <$> wallet_read alice credited_100 = Some zeroTime
  ∧ service.LockHCForEscrow clock alice (mk 60 0) credited_100
    = (Err ErrWalletExpired, credited_100)
  ∧ grpc.LockWallet clock alice "60" credited_100
    = (grpc.Status grpc.FailedPrecondition (Some ErrWalletExpired), credited_100)
  ∧ grpc.DebitWallet clock alice "60" credited_100
    = (grpc.Status grpc.FailedPrecondition (Some ErrWalletExpired), credited_100).
Proof. by_evaluation. Qed.

(** X26.  [CreditWallet] and [DebitWallet] reject every amount that is
    not positive before any call to the service. *)
Lemma credit_and_debit_reject_non_positive clk did amount d (s : Store) :
  NewFromString amount = Some d →
  LessThanOrEqual d Zero = true →
  grpc.CreditWallet clk did amount s = (grpc.Status grpc.InvalidArgument None, s)
  ∧ grpc.DebitWallet clk did amount s = (grpc.Status grpc.InvalidArgument None, s).
Proof.
  intros Hd Hle. unfold grpc.CreditWallet, grpc.DebitWallet, grpc.with_amount.
  destruct (grpc.empty did); [split; reflexivity|].
  destruct (grpc.empty amount); [split; reflexivity|].
  rewrite Hd, Hle. split; reflexivity.
Qed.

(** A release or refund whose amount is above the locked balance
    matches no row, and the call reports success on the unchanged
    database. *)
Lemma ReleaseHC_above_locked now did amount (s : Store) n :
  s !! did = Some n →
  PrimFloat.leb (Float64 amount) (locked (wallet n)) = false →
  repository.ReleaseHC now did amount s = (Ok (), s)
  ∧ repository.RefundHC now did amount s = (Ok (), s).
Proof.
  intros Hn Hle. unfold repository.ReleaseHC, repository.RefundHC.
  rewrite Hn, Hle. split; reflexivity.
Qed.

(** C1.  With 5 locked, releasing or refunding 10 returns no error and
    leaves the wallet as it was, at the service and at the handler
    (which answers with the unchanged wallet); the lock query, which
    inspects the returned row, does report the same shortfall. *)
Theorem release_refund_above_locked_report_success :
  wallet_of alice escrow_5 = Some (wallet_node 5 5 3)
  ∧ service.ReleaseHCFromEscrow clock alice (mk 10 0) escrow_5 = (Ok (), escrow_5)
  ∧ service.RefundHCFromEscrow clock alice (mk 10 0) escrow_5 = (Ok (), escrow_5)
  ∧ grpc.ReleaseWallet clock alice "10" None escrow_5
    = (grpc.Reply (wallet_view (mk 5 0) (mk 5 0) 3), escrow_5)
  ∧ repository.LockHC 1000 alice (mk 10 0) 3 escrow_5
    = (Err ErrInsufficientOrConcurrent, escrow_5).
Proof. by_evaluation. Qed.

(** The comparison is made on doubles: a release of
    0.10000000000000000001 against 0.1 locked is applied, and empties
    the escrow, although the amount is above the locked balance. *)
Example release_just_above_locked_is_applied :
  wallet_read alice locked_all = Some (wallet_view (mk 0 0) (mk 1 (-1)) 3)
  ∧ GreaterThanOrEqual (mk 1 (-1)) (mk 10000000000000000001 (-20)) = false
  ∧ fst (service.ReleaseHCFromEscrow clock alice (mk 10000000000000000001 (-20))
           locked_all) = Ok ()
  ∧ wallet_of alice
      (after (service.ReleaseHCFromEscrow clock alice
                (mk 10000000000000000001 (-20))) locked_all)
    = Some (wallet_node 0 0 4).
Proof. by_evaluation. Qed.

(** The same release with a transfer target credits the target although
    nothing left the escrow. *)
Example release_above_locked_still_credits_target :
  wallet_of alice (after (grpc.ReleaseWallet clock alice "10" (Some bob)) with_bob)
  = Some (wallet_node 5 5 3)
  ∧ wallet_of bob (after (grpc.ReleaseWallet clock alice "10" (Some bob)) with_bob)
    = Some (wallet_node 10 0 2).
Proof. by_evaluation. Qed.

(** C8.  [LockWallet] and [ReleaseWallet] do not check the sign of the
    amount.  A release of -5 with 10 available is carried out: it
    refunds -5 and leaves 5 available and 5 locked.  A lock of -5 or of
    0 passes the handler, reads the wallet from the repository and is
    turned away there as any lock is, for an expired wallet and with a
    failed precondition, not as an invalid argument; the lock query
    itself, given the amount, applies it.  [CreditWallet] and
    [DebitWallet] reject the same amounts as invalid arguments. *)
Theorem lock_and_release_accept_non_positive_amounts :
  wallet_of alice credited_10 = Some (wallet_node 10 0 2)
  ∧ fst (grpc.ReleaseWallet clock alice "-5" None credited_10)
    = grpc.Reply (wallet_view (mk 5 0) (mk 5 0) 3)
  ∧ wallet_of alice (after (grpc.ReleaseWallet clock alice "-5" None) credited_10)
    = Some (wallet_node 5 5 3)
  ∧ wallet_of alice (after (grpc.ReleaseWallet clock alice "0" None) credited_10)
    = Some (wallet_node 10 0 3)
  ∧ grpc.LockWallet clock alice "-5" credited_10
    = (grpc.Status grpc.FailedPrecondition (Some ErrWalletExpired), credited_10)
  ∧ grpc.LockWallet clock alice "0" credited_10
    = (grpc.Status grpc.FailedPrecondition (Some ErrWalletExpired), credited_10)
  ∧ grpc.LockWallet clock alice "60" credited_10
    = (grpc.Status grpc.FailedPrecondition (Some ErrWalletExpired), credited_10)
  ∧ wallet_of alice (after (repository.LockHC 1000 alice (mk (-5) 0) 2) credited_10)
    = Some (wallet_node 15 (-5) 3)
  ∧ grpc.CreditWallet clock alice "-5" credited_10
    = (grpc.Status grpc.InvalidArgument None, credited_10)
  ∧ grpc.DebitWallet clock alice "0" credited_10
    = (grpc.Status grpc.InvalidArgument None, credited_10).
Proof. by_evaluation. Qed.

(** C2.  The amounts go through binary64.  After a credit of 0.9, 0.2
    is moved into escrow and refunded, both through [ReleaseWallet]
    (the first with the amount -0.2, no lock of the service being
    accepted): both requests succeed and leave 0.8999999999999999
    available instead of 0.9.  The lock query computes the same
    balances as the first request, and the refund query is the second
    request. *)
Theorem lock_then_refund_drifts :
  wallet_read alice credited_09 = Some (wallet_view (mk 9 (-1)) (mk 0 0) 2)
  ∧ service.LockHCForEscrow clock alice (mk 2 (-1)) credited_09
    = (Err ErrWalletExpired, credited_09)
  ∧ grpc.ReleaseWallet clock alice "-0.2" None credited_09
    = (grpc.Reply (wallet_view (mk 7 (-1)) (mk 2 (-1)) 3), locked_02)
  ∧ grpc.ReleaseWallet clock alice "0.2" None locked_02
    = (grpc.Reply (wallet_view (mk 8999999999999999 (-16)) (mk 0 0) 4),
       refunded_02)
  ∧ Equal (mk 8999999999999999 (-16)) (mk 9 (-1)) = false
  ∧ repository.LockHC 1000 alice (mk 2 (-1)) 2 credited_09 = (Ok (), locked_02)
  ∧ repository.RefundHC 1000 alice (mk 2 (-1)) locked_02 = (Ok (), refunded_02).
Proof. by_evaluation. Qed.

(** The stored doubles behind that run. *)
Example lock_then_refund_doubles :
  wallet_of alice credited_09 = Some (wallet_node 0.9 0 2)
  ∧ wallet_of alice locked_02 = Some (wallet_node 0.7 0.2 3)
  ∧ wallet_of alice refunded_02 = Some (wallet_node 0.8999999999999999 0 4)
  ∧ PrimFloat.eqb 0.8999999999999999 0.9 = false.
Proof. by_evaluation. Qed.

(** The locked balance drifts in the same way: with 0.1 in escrow,
    locking and refunding 0.2 leaves 0.10000000000000003 locked. *)
Example lock_then_refund_drifts_locked :
  (0.1 + Float64 (mk 2 (-1)) - Float64 (mk 2 (-1)))%float
  = 0.10000000000000003%float.
Proof. by_evaluation. Qed.

(** C10.  With 0.3 available, the refund of -0.1 that [ReleaseWallet]
    accepts succeeds and leaves 0.19999999999999998 available and 0.1
    locked: the total goes from 0.3 to 0.29999999999999998.  The refund
    of 0.1 that follows succeeds and changes the total again, back to
    0.3.  The lock query computes the balances of the first request; no
    lock of the service is accepted, so none changes a total. *)
Theorem lock_and_refund_change_total :
  total_of alice credited_03 = Some (mk 3 (-1))
  ∧ grpc.ReleaseWallet clock alice "-0.1" None credited_03
    = (grpc.Reply (wallet_view (mk 19999999999999998 (-17)) (mk 1 (-1)) 3),
       locked_01)
  ∧ total_of alice locked_01 = Some (mk 29999999999999998 (-17))
  ∧ Equal (mk 3 (-1)) (mk 29999999999999998 (-17)) = false
  ∧ grpc.ReleaseWallet clock alice "0.1" None locked_01
    = (grpc.Reply (wallet_view (mk 3 (-1)) (mk 0 0) 4), refunded_01)
  ∧ total_of alice refunded_01 = Some (mk 3 (-1))
  ∧ service.LockHCForEscrow clock alice (mk 1 (-1)) credited_03
    = (Err ErrWalletExpired, credited_03)
  ∧ repository.LockHC 1000 alice (mk 1 (-1)) 2 credited_03 = (Ok (), locked_01)
  ∧ repository.RefundHC 1000 alice (mk 1 (-1)) locked_01 = (Ok (), refunded_01).
Proof. by_evaluation. Qed.

(** ** Optimistic concurrency *)

Section Versions.

Variables (now : Time) (did : string) (s : Store) (n : Node).
Hypothesis Hn : s !! did = Some n.

Lemma UpdateTrustScore_stale update :
  t_version (trust n) ≠ Version update →
  repository.UpdateTrustScore now did update s = (Err ErrTrustConcurrent, s).
Proof.
  intros Hne. unfold repository.UpdateTrustScore. rewrite Hn.
  destruct (Z.eqb_spec (t_version (trust n)) (Version update)); [contradiction|].
  reflexivity.
Qed.

Lemma UpdateTrustScore_commit update s' :
  repository.UpdateTrustScore now did update s = (Ok (), s') →
  t_version (trust n) = Version update
  ∧ trust_version_of did s' = Some (t_version (trust n) + 1).
Proof.
  unfold repository.UpdateTrustScore. rewrite Hn.
  destruct (Z.eqb_spec (t_version (trust n)) (Version update)) as [Heq|];
    [|discriminate].
  destruct (cy_add _ 1) as [v'|] eqn:Hv; [|discriminate].
  intros [= <-]. split; [assumption|].
  unfold trust_version_of, trust_of. rewrite lookup_insert_eq. simpl.
  rewrite (cy_add_inv _ _ _ Hv). reflexivity.
Qed.

Lemma LockHC_stale amount version :
  w_version (wallet n) ≠ version →
  repository.LockHC now did amount version s
  = (Err ErrInsufficientOrConcurrent, s).
Proof.
  intros Hne. unfold repository.LockHC. rewrite Hn.
  destruct (Z.eqb_spec (w_version (wallet n)) version); [contradiction|].
  reflexivity.
Qed.

Lemma LockHC_commit amount version s' :
  repository.LockHC now did amount version s = (Ok (), s') →
  w_version (wallet n) = version
  ∧ wallet_version_of did s' = Some (w_version (wallet n) + 1).
Proof.
  unfold repository.LockHC. rewrite Hn.
  destruct (Z.eqb_spec (w_version (wallet n)) version) as [Heq|]; [|discriminate].
  simpl. destruct (_ && _); [|discriminate].
  destruct (cy_add _ 1) as [v'|] eqn:Hv; [|discriminate].
  intros [= <-]. split; [assumption|].
  unfold wallet_version_of, wallet_of. rewrite lookup_insert_eq. simpl.
  rewrite (cy_add_inv _ _ _ Hv). reflexivity.
Qed.

Lemma ReleaseHC_unversioned amount :
  unversioned (wallet_version_of did) (w_version (wallet n) + 1)
    (repository.ReleaseHC now did amount) s.
Proof.
  intros r s'. unfold repository.ReleaseHC. rewrite Hn.
  destruct (PrimFloat.leb _ _); [|intros [= <- <-]; left; reflexivity].
  destruct (cy_add _ 1) as [v'|] eqn:Hv; [|intros [= <- <-]; left; reflexivity].
  intros [= <- <-]. right. split; [reflexivity|].
  unfold wallet_version_of, wallet_of. rewrite lookup_insert_eq. simpl.
  rewrite (cy_add_inv _ _ _ Hv). reflexivity.
Qed.

Lemma RefundHC_unversioned amount :
  unversioned (wallet_version_of did) (w_version (wallet n) + 1)
    (repository.RefundHC now did amount) s.
Proof.
  intros r s'. unfold repository.RefundHC. rewrite Hn.
  destruct (PrimFloat.leb _ _); [|intros [= <- <-]; left; reflexivity].
  destruct (cy_add _ 1) as [v'|] eqn:Hv; [|intros [= <- <-]; left; reflexivity].
  intros [= <- <-]. right. split; [reflexivity|].
  unfold wallet_version_of, wallet_of. rewrite lookup_insert_eq. simpl.
  rewrite (cy_add_inv _ _ _ Hv). reflexivity.
Qed.

Lemma CreditHC_unversioned amount :
  unversioned (wallet_version_of did) (w_version (wallet n) + 1)
    (repository.CreditHC now did amount) s.
Proof.
  intros r s'. unfold repository.CreditHC. rewrite Hn.
  destruct (cy_add _ 1) as [v'|] eqn:Hv; [|intros [= <- <-]; left; reflexivity].
  intros [= <- <-]. right. split; [reflexivity|].
  unfold wallet_version_of, wallet_of. rewrite lookup_insert_eq. simpl.
  rewrite (cy_add_inv _ _ _ Hv). reflexivity.
Qed.

Lemma RecordVerificationOutcome_unversioned passed latency :
  unversioned (trust_version_of did) (t_version (trust n) + 1)
    (repository.RecordVerificationOutcome now did passed latency) s.
Proof.
  intros r s'. unfold repository.RecordVerificationOutcome. rewrite Hn.
  destruct (repository.record_outcome _ _ _ _) as [t'|] eqn:Ht;
    [|intros [= <- <-]; left; reflexivity].
  intros [= <- <-]. right. split; [reflexivity|].
  unfold trust_version_of, trust_of. rewrite lookup_insert_eq. simpl.
  f_equal. eapply record_outcome_version; eassumption.
Qed.

End Versions.

(** C3 (amended).  [UpdateTrustScore] and [LockHC] present a version:
    with a version other than the stored one they are rejected and the
    database is unchanged, and when they succeed the stored version was
    the presented one and is advanced by exactly one.  [ReleaseHC],
    [RefundHC], [CreditHC] and [RecordVerificationOutcome] present no
    version: each either leaves the database unchanged or succeeds and
    advances the version by exactly one. *)
Theorem versioned_and_unversioned_writes now did (s : Store) n :
  s !! did = Some n → version_discipline now did s n.
Proof.
  intros Hn. unfold version_discipline. repeat split.
  - apply UpdateTrustScore_stale; assumption.
  - eapply UpdateTrustScore_commit; eassumption.
  - eapply UpdateTrustScore_commit; eassumption.
  - apply LockHC_stale; assumption.
  - eapply LockHC_commit; eassumption.
  - eapply LockHC_commit; eassumption.
  - apply ReleaseHC_unversioned; assumption.
  - apply RefundHC_unversioned; assumption.
  - apply CreditHC_unversioned; assumption.
  - apply RecordVerificationOutcome_unversioned; assumption.
Qed.

Lemma versioned_and_unversioned_writes_witness :
  escrow_5 !! alice
  = Some (alice_node (repository.default_trust 1000) (wallet_node 5 5 3))
  ∧ version_discipline 2000 alice escrow_5
      (alice_node (repository.default_trust 1000) (wallet_node 5 5 3)).
Proof.
  assert (H : escrow_5 !! alice
              = Some (alice_node (repository.default_trust 1000)
                        (wallet_node 5 5 3))) by by_evaluation.
  split; [exact H|].
  exact (versioned_and_unversioned_writes 2000 alice escrow_5 _ H).
Defined.

Lemma committed_not_rejected seen stored op (s : Store) :
  stored ≠ Some seen → fst (op s) = Ok () → ¬ rejects_stale seen stored op s.
Proof.
  intros Hne Hok Hrej. destruct (Hrej Hne) as [e He].
  rewrite He in Hok. discriminate.
Qed.

(** C3, as stated, fails: a caller reads Alice's wallet at version 1,
    other writes move it to version 3, and the caller's own credit,
    release and refund are all committed on the newer state; so is a
    verification outcome after the trust score moved from version 1 to
    version 102. *)
Lemma stale_writes_are_committed :
  WVersion <$> wallet_read alice opened = Some 1
  ∧ wallet_version_of alice escrow_5 = Some 3
  ∧ ¬ rejects_stale 1 (Some 3) (repository.CreditHC 2000 alice (mk 7 0)) escrow_5
  ∧ ¬ rejects_stale 1 (Some 3) (repository.ReleaseHC 2000 alice (mk 1 0)) escrow_5
  ∧ ¬ rejects_stale 1 (Some 3) (repository.RefundHC 2000 alice (mk 1 0)) escrow_5
  ∧ trust_version_of alice opened = Some 1
  ∧ trust_version_of alice worn = Some 102
  ∧ ¬ rejects_stale 1 (Some 102)
        (repository.RecordVerificationOutcome 2000 alice true 0) worn.
Proof.
  repeat apply conj;
    try (apply committed_not_rejected; [discriminate|]);
    by_evaluation.
Qed.

(** ** Lineage *)

(** *** The graph keeps its shape *)

Lemma ranked_update rank (s : Store) did n n' :
  ranked rank s → s !! did = Some n → spawned_by n' = spawned_by n →
  ranked rank (<[did := n']> s).
Proof.
  intros Hr Hn Hsp d m Hd.
  rewrite map_size_insert_Some by eauto.
  assert (Hm : ∃ m0, s !! d = Some m0 ∧ spawned_by m = spawned_by m0).
  { destruct (decide (did = d)) as [->|Hne].
    - rewrite lookup_insert_eq in Hd. injection Hd as <-. eauto.
    - rewrite lookup_insert_ne in Hd by assumption. eauto. }
  destruct Hm as (m0 & Hd0 & Heq). destruct (Hr d m0 Hd0) as [Hlt Hpar].
  split; [assumption|]. intros p Hp. rewrite Heq in Hp.
  destruct (Hpar p Hp) as [Hsome Hrank]. split; [|assumption].
  destruct (decide (did = p)) as [->|Hne].
  - rewrite lookup_insert_eq. eauto.
  - rewrite lookup_insert_ne by assumption. assumption.
Qed.

Lemma ranked_create rank (s : Store) did n' :
  ranked rank s → s !! did = None →
  (∀ p, spawned_by n' = Some p → is_Some (s !! p)) →
  ranked (λ d, if decide (d = did) then size s else rank d) (<[did := n']> s).
Proof.
  intros Hr Hfresh Hpar d m Hd.
  rewrite map_size_insert_None by assumption.
  assert (Hother : ∀ p, is_Some (s !! p) →
            (if decide (p = did) then size s else rank p) = rank p
            ∧ (rank p < size s)%nat ∧ is_Some (<[did := n']> s !! p)).
  { intros p [mp Hp]. destruct (decide (p = did)) as [->|Hne]; [congruence|].
    split; [reflexivity|]. split; [apply (Hr p mp Hp)|].
    rewrite lookup_insert_ne by congruence. eauto. }
  destruct (decide (d = did)) as [->|Hne].
  - rewrite lookup_insert_eq in Hd. injection Hd as <-.
    split; [lia|]. intros p Hp.
    destruct (Hother p (Hpar p Hp)) as (-> & Hlt & Hsome). auto.
  - rewrite lookup_insert_ne in Hd by congruence.
    destruct (Hr d m Hd) as [Hlt Hp]. split; [lia|]. intros p Hsp.
    destruct (Hp p Hsp) as [Hsome Hrank].
    destruct (Hother p Hsome) as (-> & _ & Hsome'). auto.
Qed.

Lemma ranked_steps (s s' : Store) :
  rtc graph_step s s' → (∃ rank, ranked rank s) → ∃ rank, ranked rank s'.
Proof.
  induction 1 as [|s1 s2 s3 Hstep _ IH]; [auto|].
  intros [rank Hr]. apply IH. destruct Hstep.
  - exists rank. eapply ranked_update; eassumption.
  - eexists. apply ranked_create; eassumption.
Qed.

Lemma with_trust_step (s : Store) did n t :
  s !! did = Some n → rtc graph_step s (<[did := with_trust n t]> s).
Proof. intros Hn. apply rtc_once. eapply step_update; [eassumption|reflexivity]. Qed.

Lemma with_wallet_step (s : Store) did n w :
  s !! did = Some n → rtc graph_step s (<[did := with_wallet n w]> s).
Proof. intros Hn. apply rtc_once. eapply step_update; [eassumption|reflexivity]. Qed.

Lemma UpdateTrustScore_steps now did update (s : Store) :
  rtc graph_step s (after (repository.UpdateTrustScore now did update) s).
Proof.
  unfold after, repository.UpdateTrustScore.
  destruct (s !! did) as [n|] eqn:Hn; [|reflexivity].
  destruct (_ =? _); [|reflexivity].
  destruct (cy_add _ _); [|reflexivity].
  apply with_trust_step. assumption.
Qed.

Lemma RecordVerificationOutcome_steps now did passed latency (s : Store) :
  rtc graph_step s
    (after (repository.RecordVerificationOutcome now did passed latency) s).
Proof.
  unfold after, repository.RecordVerificationOutcome.
  destruct (s !! did) as [n|] eqn:Hn; [|reflexivity].
  destruct (repository.record_outcome _ _ _ _); [|reflexivity].
  apply with_trust_step. assumption.
Qed.

Lemma LockHC_steps now did amount version (s : Store) :
  rtc graph_step s (after (repository.LockHC now did amount version) s).
Proof.
  unfold after, repository.LockHC.
  destruct (s !! did) as [n|] eqn:Hn; [|reflexivity].
  destruct (_ && _); [|reflexivity].
  destruct (cy_add _ _); [|reflexivity].
  apply with_wallet_step. assumption.
Qed.

Lemma ReleaseHC_steps now did amount (s : Store) :
  rtc graph_step s (after (repository.ReleaseHC now did amount) s).
Proof.
  unfold after, repository.ReleaseHC.
  destruct (s !! did) as [n|] eqn:Hn; [|reflexivity].
  destruct (PrimFloat.leb _ _); [|reflexivity].
  destruct (cy_add _ _); [|reflexivity].
  apply with_wallet_step. assumption.
Qed.

Lemma RefundHC_steps now did amount (s : Store) :
  rtc graph_step s (after (repository.RefundHC now did amount) s).
Proof.
  unfold after, repository.RefundHC.
  destruct (s !! did) as [n|] eqn:Hn; [|reflexivity].
  destruct (PrimFloat.leb _ _); [|reflexivity].
  destruct (cy_add _ _); [|reflexivity].
  apply with_wallet_step. assumption.
Qed.

Lemma CreditHC_steps now did amount (s : Store) :
  rtc graph_step s (after (repository.CreditHC now did amount) s).
Proof.
  unfold after, repository.CreditHC.
  destruct (s !! did) as [n|] eqn:Hn; [|reflexivity].
  destruct (cy_add _ _); [|reflexivity].
  apply with_wallet_step. assumption.
Qed.

Lemma LockHCForEscrow_steps clk did amount (s : Store) :
  rtc graph_step s (after (service.LockHCForEscrow clk did amount) s).
Proof.
  unfold after, service.LockHCForEscrow, bind, repository.GetHCWallet.
  destruct (s !! did) as [n|] eqn:Hn; [|reflexivity].
  destruct (IsExpired _ _); [reflexivity|].
  destruct (negb _); [reflexivity|].
  apply LockHC_steps.
Qed.

Lemma inheritParentTrust_steps clk child spawner (s : Store) :
  rtc graph_step s (after (service.inheritParentTrust clk child spawner) s).
Proof.
  unfold after, service.inheritParentTrust, bind, repository.GetTrustScore.
  destruct (s !! spawner); [|reflexivity].
  destruct (s !! child); [|reflexivity].
  apply UpdateTrustScore_steps.
Qed.

Lemma CreateIdentity_steps clk did key kind spawner (s : Store) :
  spawner ≠ Some did →
  rtc graph_step s (after (service.CreateIdentity clk did key kind spawner) s).
Proof.
  intros Hfresh.
  unfold after, service.CreateIdentity, bind, repository.CreateIdentity. simpl.
  destruct (s !! did) as [n|] eqn:Hn; [reflexivity|].
  match goal with
  | |- context [<[did := ?n']> s] =>
      assert (Hstep : graph_step s (<[did := n']> s))
  end.
  { apply step_create; [assumption|]. simpl. intros p Hp.
    destruct spawner as [q|]; [|discriminate].
    destruct (decide (q = did)) as [->|_]; [congruence|].
    destruct (s !! q) eqn:Hq; [|discriminate].
    injection Hp as <-. eauto. }
  destruct spawner as [q|]; simpl.
  - eapply rtc_l; [exact Hstep|]. apply inheritParentTrust_steps.
  - apply rtc_once. exact Hstep.
Qed.

Lemma reachable_ranked (s : Store) : reachable s → ∃ rank, ranked rank s.
Proof.
  induction 1 as [|clk did key kind spawner s _ IH Hfresh
                  |clk did passed latency s _ IH
                  |clk did amount s _ IH|clk did amount s _ IH
                  |clk did amount s _ IH|clk did amount s _ IH].
  - exists (λ _, O). intros did n Hn. rewrite lookup_empty in Hn. discriminate.
  - eapply ranked_steps; [|exact IH]. apply CreateIdentity_steps. assumption.
  - eapply ranked_steps; [|exact IH]. apply RecordVerificationOutcome_steps.
  - eapply ranked_steps; [|exact IH]. apply LockHCForEscrow_steps.
  - eapply ranked_steps; [|exact IH]. apply ReleaseHC_steps.
  - eapply ranked_steps; [|exact IH]. apply RefundHC_steps.
  - eapply ranked_steps; [|exact IH]. apply CreditHC_steps.
Qed.

(** *** The path query *)

Lemma spawn_path_sound fuel (s : Store) did l :
  repository.spawn_path fuel s did = Some l → spawn_chain s l did.
Proof.
  revert did l. induction fuel as [|fuel IH]; intros did l; simpl; [discriminate|].
  destruct (s !! did) as [n|] eqn:Hn; [|discriminate].
  destruct (spawned_by n) as [p|] eqn:Hp.
  - destruct (repository.spawn_path fuel s p) as [l'|] eqn:Hl; [|discriminate].
    simpl. intros [= <-]. eapply chain_step; eauto.
  - intros [= <-]. eapply chain_root; eauto.
Qed.

Lemma spawn_path_found rank fuel (s : Store) did n :
  ranked rank s → s !! did = Some n → (rank did < fuel)%nat →
  is_Some (repository.spawn_path fuel s did).
Proof.
  intros Hr. revert did n. induction fuel as [|fuel IH]; intros did n Hn Hlt; [lia|].
  simpl. rewrite Hn. destruct (Hr did n Hn) as [_ Hpar].
  destruct (spawned_by n) as [p|]; [|eauto].
  destruct (Hpar p eq_refl) as [[np Hnp] Hrank].
  destruct (IH p np Hnp) as [l Hl]; [lia|]. rewrite Hl. simpl. eauto.
Qed.

Lemma spawn_chain_length (s : Store) l did :
  spawn_chain s l did → (0 < length l)%nat ∧ last l = Some did.
Proof.
  induction 1 as [did n Hn Hsp|did n p l Hn Hsp _ _].
  - split; [simpl; lia|reflexivity].
  - rewrite length_app, last_snoc. simpl. split; [lia|reflexivity].
Qed.

(** In every database the service produces, the lineage of every
    identity is found: the chain of its spawners from the root down to
    the identity itself, with the number of edges as depth. *)
Theorem lineage_of_reachable (s : Store) did n :
  reachable s → s !! did = Some n →
  ∃ l,
    service.GetAgentLineage did s
    = (Ok {| AgentDID := did; LParentDID := spawned_by n;
             RootDID := List.hd did l;
             Depth := Z.of_nat (length l) - 1;
             SpawnedAt := zeroTime;
             Ancestors := l |}, s)
    ∧ spawn_chain s l did
    ∧ last l = Some did.
Proof.
  intros Hreach Hn. destruct (reachable_ranked s Hreach) as [rank Hr].
  destruct (spawn_path_found rank (S (size s)) s did n Hr Hn) as [l Hl].
  { destruct (Hr did n Hn) as [Hlt _]. lia. }
  exists l. unfold service.GetAgentLineage, repository.GetAgentLineage.
  rewrite Hn, Hl. split; [reflexivity|].
  pose proof (spawn_path_sound _ _ _ _ Hl) as Hchain.
  split; [assumption|]. apply (spawn_chain_length _ _ _ Hchain).
Qed.

(** *** The handler *)

(** With every listed identity present the factors are the successive
    products of the inheritance factor, in the order of the list. *)
Lemma add_ancestors_present (s : Store) (ancestors : list string) ids factors f :
  Forall (λ d, is_Some (s !! d)) ancestors →
  ∃ found,
    DID <$> found = ancestors
    ∧ grpc.add_ancestors s ancestors ids factors f
      = {| grpc.Lineage := ids ++ found;
           grpc.TrustInheritance :=
             factors ++ ((λ k, Nat.iter k (λ x, x * InheritedTrust)%float f)
                           <$> seq 0 (length ancestors)) |}.
Proof.
  intros Hall. revert ids factors f.
  induction Hall as [|d rest [n Hn] _ IH]; intros ids factors f.
  - exists []. simpl. rewrite !app_nil_r. auto.
  - simpl. unfold service.GetIdentity, repository.GetIdentity. rewrite Hn.
    change (local_date_time (delivered (created_at n))) with zeroTime.
    destruct (IH (ids ++ [{| DID := d; EntityType_ := entity_type n;
                             ParentDID := spawned_by n;
                             CreatedAt := zeroTime;
                             PublicKey := public_key n |}])
                 (factors ++ [f]) (f * InheritedTrust)%float)
      as (found & Hdid & Heq).
    exists ({| DID := d; EntityType_ := entity_type n;
               ParentDID := spawned_by n; CreatedAt := zeroTime;
               PublicKey := public_key n |} :: found). split.
    + rewrite fmap_cons, Hdid. reflexivity.
    + rewrite Heq. rewrite <- !app_assoc. simpl. do 3 f_equal.
      rewrite <- seq_shift, <- list_fmap_compose.
      apply list_fmap_ext. intros i k _. simpl.
      clear. revert f. induction k as [|k IHk]; intros f; simpl; [reflexivity|].
      rewrite IHk. reflexivity.
Qed.

Lemma spawn_chain_present (s : Store) l did :
  spawn_chain s l did → Forall (λ d, is_Some (s !! d)) l.
Proof.
  induction 1 as [did n Hn _|did n p l Hn _ _ IH].
  - repeat constructor. eauto.
  - apply Forall_app. split; [assumption|]. repeat constructor. eauto.
Qed.

(** X25.  In every database the service produces, the handler answers
    for an identity with the identity itself at factor 1, followed by its
    chain from the root down to the identity itself, the k-th entry of
    the chain (from 0, the root) at factor 0.30 multiplied k times by
    0.30. *)
Theorem ResolveLineage_of_reachable (s : Store) did n :
  reachable s → s !! did = Some n → did ≠ ""%string →
  ∃ l,
    spawn_chain s l did
    ∧ resolved did s
      = Some (zip (did :: l)
                (1%float
                 :: ((λ k, Nat.iter k (λ x, x * InheritedTrust)%float InheritedTrust)
                       <$> seq 0 (length l)))).
Proof.
  intros Hreach Hn Hdid.
  destruct (lineage_of_reachable s did n Hreach Hn) as (l & Hl & Hchain & _).
  exists l. split; [assumption|].
  unfold resolved, grpc.ResolveLineage, grpc.empty.
  rewrite bool_decide_eq_false_2 by assumption.
  unfold grpc.call. rewrite Hl.
  unfold service.GetIdentity, repository.GetIdentity. rewrite Hn. simpl.
  destruct (add_ancestors_present s l
              [{| DID := did; EntityType_ := entity_type n;
                  ParentDID := spawned_by n; CreatedAt := zeroTime;
                  PublicKey := public_key n |}]
              [1%float] InheritedTrust (spawn_chain_present _ _ _ Hchain))
    as (found & Hfound & ->).
  simpl. unfold fmap in Hfound. rewrite Hfound. reflexivity.
Qed.

(** C5.  The repository returns the path from the root to the queried
    identity, with its length as depth.  The handler lists the queried
    identity first, then the same path from the root, and hands out the
    factors in that order: the root receives 0.30, the direct parent
    0.30 * 0.30, and the queried identity appears a second time with
    0.30 * 0.30 * 0.30. *)
Theorem lineage_factors_start_at_root :
  fst (service.GetAgentLineage agent family)
  = Ok {| AgentDID := agent; LParentDID := Some parent; RootDID := root;
          Depth := 2; SpawnedAt := zeroTime;
          Ancestors := [root; parent; agent] |}
  ∧ resolved agent family
    = Some [(agent, 1%float);
            (root, InheritedTrust);
            (parent, (InheritedTrust * InheritedTrust)%float);
            (agent, (InheritedTrust * InheritedTrust * InheritedTrust)%float)].
Proof. by_evaluation. Qed.

(** * Further properties of the code *)

(** ** Trust tiers and the discount *)

(** X1.  Every trust score is in exactly one of the tiers low, medium
    and high. *)
Theorem trust_tiers_partition (t : TrustScore) :
  (IsLowTrust t = true ∧ IsMediumTrust t = false ∧ IsHighTrust t = false)
  ∨ (IsLowTrust t = false ∧ IsMediumTrust t = true ∧ IsHighTrust t = false)
  ∨ (IsLowTrust t = false ∧ IsMediumTrust t = false ∧ IsHighTrust t = true).
Proof.
  unfold IsLowTrust, IsMediumTrust, IsHighTrust.
  destruct (Z.ltb_spec (Score t) 500), (Z.leb_spec 500 (Score t)),
    (Z.ltb_spec (Score t) 800), (Z.leb_spec 800 (Score t)); simpl; try lia;
    auto 10.
Qed.

Lemma discount_in_band_upto_1000 :
  forallb discount_in_band (map Z.of_nat (seq 0 1001)) = true.
Proof. vm_compute. reflexivity. Qed.

(** X2.  For a score from 0 to 1000 the discount lies between 0 and
    the maximum of 0.20 and follows the tier: below 0.10 for low trust,
    from 0.10 to below 0.16 for medium trust, at least 0.16 for high
    trust. *)
Theorem discount_follows_tier (t : TrustScore) :
  0 <= Score t <= 1000 →
  PrimFloat.leb 0 (DiscountRate t) = true
  ∧ PrimFloat.leb (DiscountRate t) MaxDiscountRate = true
  ∧ (IsLowTrust t = true → PrimFloat.ltb (DiscountRate t) 0.10 = true)
  ∧ (IsMediumTrust t = true →
     PrimFloat.leb 0.10 (DiscountRate t) = true
     ∧ PrimFloat.ltb (DiscountRate t) 0.16 = true)
  ∧ (IsHighTrust t = true → PrimFloat.leb 0.16 (DiscountRate t) = true).
Proof.
  intros Hz.
  assert (Hok : discount_in_band (Score t) = true).
  { apply (range_check discount_in_band 1001 discount_in_band_upto_1000). lia. }
  change (DiscountRate t) with (discount_for (Score t)).
  unfold IsLowTrust, IsMediumTrust, IsHighTrust.
  unfold discount_in_band, within in Hok.
  apply andb_true_iff in Hok as [Hrange Hband].
  apply andb_true_iff in Hrange as [Hlo Hhi].
  split; [assumption|]. split; [assumption|].
  destruct (Z.ltb_spec (Score t) 500) as [Hlow|Hlow];
    [|destruct (Z.ltb_spec (Score t) 800) as [Hmed|Hmed]];
    destruct (Z.leb_spec 500 (Score t)); try lia;
    destruct (Z.leb_spec 800 (Score t)); try lia; simpl.
  - split; [intros _; assumption|]. split; intros Hf; discriminate Hf.
  - apply andb_true_iff in Hband as [? ?].
    split; [intros Hf; discriminate Hf|].
    split; [auto|intros Hf; discriminate Hf].
  - split; [intros Hf; discriminate Hf|].
    split; [intros Hf; discriminate Hf|auto].
Qed.

Lemma discount_follows_tier_witness :
  PrimFloat.leb 0.16 (DiscountRate trust_800) = true
  ∧ PrimFloat.leb (DiscountRate trust_800) MaxDiscountRate = true.
Proof.
  destruct (discount_follows_tier trust_800) as (_ & Hmax & _ & _ & Hhigh).
  - simpl. lia.
  - split; [apply Hhigh; reflexivity|exact Hmax].
Defined.

(** ** Entity types *)

(** X3.  The entity type written to the graph as a string is read back
    as the same entity type, and a string that is none of "human",
    "agent" and "organization" is read as the unspecified type. *)
Theorem entity_type_string_round_trip :
  (∀ e, repository.parse_entity_type (EntityType_String e) = e)
  ∧ (∀ stored, repository.parse_entity_type stored = EntityTypeUnspecified
               ∨ EntityType_String (repository.parse_entity_type stored) = stored).
Proof.
  split.
  - intros []; reflexivity.
  - intros stored. unfold repository.parse_entity_type.
    repeat case_decide; subst; auto.
Qed.

(** X4.  Converting an entity type to the protocol and back gives the
    same entity type; a protocol value converted to the domain and back
    is unchanged unless its number names no value, and then it becomes
    the unspecified value. *)
Theorem entity_type_proto_round_trip :
  (∀ e, grpc.protoToEntityType (grpc.entityTypeToProto e) = e)
  ∧ (∀ p, grpc.entityTypeToProto (grpc.protoToEntityType p)
          = match p with
            | grpc.EntityType_unrecognized _ => grpc.EntityType_ENTITY_TYPE_UNSPECIFIED
            | _ => p
            end).
Proof. split; intros []; reflexivity. Qed.

(** ** Configuration *)

(** X5.  Loading the configuration fails exactly when NEO4J_PASSWORD is
    not set or empty; when it succeeds the password is the one of the
    environment. *)
Theorem Load_requires_password (env : gmap string string) :
  (config.Load env = None
   ↔ env !! "NEO4J_PASSWORD"%string = None
     ∨ env !! "NEO4J_PASSWORD"%string = Some ""%string)
  ∧ (∀ cfg, config.Load env = Some cfg →
            env !! "NEO4J_PASSWORD"%string
            = Some (config.Password (config.Neo4j cfg))).
Proof.
  unfold config.Load. cbn [config.Password config.Neo4j].
  set (pw := config.getEnv env "NEO4J_PASSWORD" "").
  assert (Hpw : pw = default ""%string (env !! "NEO4J_PASSWORD"%string)).
  { unfold pw, config.getEnv, config.Getenv. case_bool_decide; congruence. }
  clearbody pw. subst pw.
  destruct (env !! "NEO4J_PASSWORD"%string) as [p|]; simpl.
  - case_bool_decide as Hp.
    + subst p. split; [split; auto|]. intros cfg Hcfg. discriminate Hcfg.
    + split.
      * split; [intros Hcfg; discriminate Hcfg|].
        intros [Hf|Hf]; [discriminate Hf|congruence].
      * intros cfg [= <-]. reflexivity.
  - split; [split; auto|]. intros cfg Hcfg. discriminate Hcfg.
Qed.

(** X6.  With no setting but the password in the environment, every
    other setting has its default: port 50051, message sizes of 4 MiB,
    30 seconds to shut down, the local database, a zero initial balance,
    30 days of expiry, inheritance enabled and a default score of 500. *)
Theorem Load_defaults (env : gmap string string) password :
  env !! "NEO4J_PASSWORD"%string = Some password →
  password ≠ ""%string →
  (∀ key, key ≠ "NEO4J_PASSWORD"%string → env !! key = None) →
  config.Load env = Some (default_config password).
Proof.
  intros Hpw Hne Honly.
  unfold config.Load, config.getEnv, config.getEnvInt, config.getEnvBool,
    config.Getenv.
  rewrite Hpw.
  repeat match goal with
         | |- context [env !! ?k] => rewrite (Honly k) by discriminate
         end.
  simpl. rewrite (bool_decide_eq_false_2 (password = ""%string)) by assumption.
  rewrite (bool_decide_eq_false_2 (password = ""%string)) by assumption.
  reflexivity.
Qed.

Lemma Load_defaults_witness :
  config.Load {[ "NEO4J_PASSWORD"%string := "secret"%string ]}
  = Some (default_config "secret").
Proof.
  apply (Load_defaults {[ "NEO4J_PASSWORD"%string := "secret"%string ]}).
  - reflexivity.
  - discriminate.
  - intros key Hkey. apply lookup_singleton_ne. congruence.
Defined.

(** ** What a call leaves alone *)

Ltac open_call :=
  unfold after, service.RecordVerificationOutcome, service.LockHCForEscrow,
    service.ReleaseHCFromEscrow, service.RefundHCFromEscrow, service.CreditHC,
    service.inheritParentTrust,
    repository.RecordVerificationOutcome, repository.LockHC,
    repository.ReleaseHC, repository.RefundHC, repository.CreditHC,
    repository.UpdateTrustScore, repository.GetHCWallet,
    repository.GetTrustScore, bind, fail, ret.

Lemma CreateIdentity_after clk did key kind spawner (s : Store) :
  after (service.CreateIdentity clk did key kind spawner) s
  = match s !! did with
    | Some _ => s
    | None =>
        let created := repository.rfc3339 (go_now clk) in
        let s1 :=
          <[did := {| entity_type := kind; created_at := created;
                      public_key := key;
                      spawned_by :=
                        match spawner with
                        | Some p =>
                            if decide (p = did) then Some p
                            else match s !! p with
                                 | Some _ => Some p
                                 | None => None
                                 end
                        | None => None
                        end;
                      trust := repository.default_trust created;
                      wallet := repository.default_wallet (db_now clk) created |}]> s in
        match spawner with
        | Some p => after (service.inheritParentTrust clk did p) s1
        | None => s1
        end
    end.
Proof.
  unfold after, service.CreateIdentity, bind, repository.CreateIdentity. simpl.
  destruct (s !! did); [reflexivity|]. destruct spawner; reflexivity.
Qed.

Lemma inheritParentTrust_other clk child spawner other (s : Store) :
  other ≠ child →
  after (service.inheritParentTrust clk child spawner) s !! other = s !! other.
Proof.
  intros Hne. open_call. repeat (case_match; simplify_eq); simpl; try reflexivity.
  apply lookup_insert_ne. congruence.
Qed.

(** X7.  A call of the service for one identity changes no other
    identity: neither its record nor its trust score nor its wallet.
    In particular, spawning a child leaves the parent as it was. *)
Theorem calls_change_one_identity clk did other key kind spawner passed latency
    amount (s : Store) :
  other ≠ did →
  after (service.CreateIdentity clk did key kind spawner) s !! other = s !! other
  ∧ after (service.RecordVerificationOutcome clk did passed latency) s !! other
    = s !! other
  ∧ after (service.LockHCForEscrow clk did amount) s !! other = s !! other
  ∧ after (service.ReleaseHCFromEscrow clk did amount) s !! other = s !! other
  ∧ after (service.RefundHCFromEscrow clk did amount) s !! other = s !! other
  ∧ after (service.CreditHC clk did amount) s !! other = s !! other.
Proof.
  intros Hne. split.
  { rewrite CreateIdentity_after. destruct (s !! did); [reflexivity|]. simpl.
    destruct spawner.
    - rewrite inheritParentTrust_other by assumption.
      apply lookup_insert_ne. congruence.
    - apply lookup_insert_ne. congruence. }
  repeat split; open_call; repeat (case_match; simplify_eq); simpl;
    try reflexivity; apply lookup_insert_ne; congruence.
Qed.

Lemma calls_change_one_identity_witness :
  after (service.CreateIdentity clock kid [] EntityTypeAgent (Some alice)) praised
    !! alice
  = praised !! alice.
Proof.
  refine (proj1 (calls_change_one_identity clock kid alice [] EntityTypeAgent
                   (Some alice) true 0 Zero praised _)).
  discriminate.
Defined.

(** X8.  The wallet calls never change a trust score, and recording a
    verification outcome never changes a wallet. *)
Theorem wallet_and_trust_are_separate clk did who passed latency amount
    (s : Store) :
  trust_of who (after (service.LockHCForEscrow clk did amount) s) = trust_of who s
  ∧ trust_of who (after (service.ReleaseHCFromEscrow clk did amount) s)
    = trust_of who s
  ∧ trust_of who (after (service.RefundHCFromEscrow clk did amount) s)
    = trust_of who s
  ∧ trust_of who (after (service.CreditHC clk did amount) s) = trust_of who s
  ∧ wallet_of who (after (service.RecordVerificationOutcome clk did passed latency) s)
    = wallet_of who s.
Proof.
  unfold trust_of, wallet_of.
  repeat split; open_call; repeat (case_match; simplify_eq); simpl;
    try reflexivity;
    (destruct (decide (did = who)) as [<-|Hne];
     [rewrite lookup_insert_eq; simpl;
      match goal with H : _ !! did = Some _ |- _ => rewrite H end; reflexivity
     |rewrite lookup_insert_ne by assumption; reflexivity]).
Qed.

(** X9.  A call of the service that returns an error has changed
    nothing. *)
Theorem failed_calls_change_nothing clk did key kind spawner passed latency
    amount (s s' : Store) e :
  (service.CreateIdentity clk did key kind spawner s = (Err e, s') → s' = s)
  ∧ (service.RecordVerificationOutcome clk did passed latency s = (Err e, s') →
     s' = s)
  ∧ (service.LockHCForEscrow clk did amount s = (Err e, s') → s' = s)
  ∧ (service.ReleaseHCFromEscrow clk did amount s = (Err e, s') → s' = s)
  ∧ (service.RefundHCFromEscrow clk did amount s = (Err e, s') → s' = s)
  ∧ (service.CreditHC clk did amount s = (Err e, s') → s' = s).
Proof.
  split.
  { unfold service.CreateIdentity, bind, repository.CreateIdentity. simpl.
    destruct (s !! did); [congruence|]. destruct spawner; unfold ret; congruence. }
  repeat split; open_call; intros Hcall; repeat (case_match; simplify_eq);
    reflexivity.
Qed.

(** ** What the service keeps *)

Lemma node_le_refl n : node_le n n.
Proof. unfold node_le, same_identity. repeat split; lia. Qed.

Lemma grows_refl (s : Store) : grows s s.
Proof. intros did n Hn. exists n. split; [assumption|apply node_le_refl]. Qed.

Lemma grows_trans (s1 s2 s3 : Store) : grows s1 s2 → grows s2 s3 → grows s1 s3.
Proof.
  intros H12 H23 did n Hn.
  destruct (H12 did n Hn) as (n2 & Hn2 & (Hid2 & Ht2 & Hw2)).
  destruct (H23 did n2 Hn2) as (n3 & Hn3 & (Hid3 & Ht3 & Hw3)).
  exists n3. split; [assumption|].
  unfold node_le, same_identity in *.
  destruct Hid2 as (? & ? & ? & ?), Hid3 as (? & ? & ? & ?).
  repeat split; try congruence; lia.
Qed.

Lemma grows_insert (s : Store) did n n' :
  s !! did = Some n → node_le n n' → grows s (<[did := n']> s).
Proof.
  intros Hn Hle d m Hm. destruct (decide (did = d)) as [<-|Hne].
  - rewrite lookup_insert_eq. exists n'. split; [reflexivity|]. congruence.
  - rewrite lookup_insert_ne by assumption. exists m.
    split; [assumption|apply node_le_refl].
Qed.

Lemma grows_fresh (s : Store) did n' :
  s !! did = None → grows s (<[did := n']> s).
Proof.
  intros Hfresh d m Hm. destruct (decide (did = d)) as [<-|Hne]; [congruence|].
  rewrite lookup_insert_ne by assumption. exists m.
  split; [assumption|apply node_le_refl].
Qed.

Ltac grows_by_insert :=
  eapply grows_insert; [eassumption|];
  unfold node_le, same_identity; simpl;
  repeat match goal with
         | H : cy_add _ _ = Some _ |- _ => apply cy_add_inv in H
         end;
  repeat split; lia.

Lemma inheritParentTrust_grows clk child spawner (s : Store) :
  grows s (after (service.inheritParentTrust clk child spawner) s).
Proof.
  open_call. repeat (case_match; simplify_eq); simpl; try apply grows_refl.
  grows_by_insert.
Qed.

Lemma CreateIdentity_grows clk did key kind spawner (s : Store) :
  grows s (after (service.CreateIdentity clk did key kind spawner) s).
Proof.
  rewrite CreateIdentity_after.
  destruct (s !! did) eqn:Hdid; [apply grows_refl|]. simpl.
  destruct spawner.
  - eapply grows_trans; [|apply inheritParentTrust_grows].
    apply grows_fresh; assumption.
  - apply grows_fresh; assumption.
Qed.

Lemma calls_grow clk did passed latency amount (s : Store) :
  grows s (after (service.RecordVerificationOutcome clk did passed latency) s)
  ∧ grows s (after (service.LockHCForEscrow clk did amount) s)
  ∧ grows s (after (service.ReleaseHCFromEscrow clk did amount) s)
  ∧ grows s (after (service.RefundHCFromEscrow clk did amount) s)
  ∧ grows s (after (service.CreditHC clk did amount) s).
Proof.
  split; [|split; [|split; [|split]]];
    open_call; repeat (case_match; simplify_eq); simpl;
    try apply grows_refl; try grows_by_insert.
  unfold repository.record_outcome in *. simplify_option_eq.
  eapply grows_insert; [eassumption|].
  unfold node_le, same_identity; simpl.
  repeat match goal with
         | H : cy_add _ _ = Some _ |- _ => apply cy_add_inv in H
         end.
  repeat split; lia.
Qed.

(** X10.  Whatever calls of the service follow, an identity stays in
    the database with its entity type, creation time, public key and
    spawner, and the versions of its trust score and of its wallet
    never go down. *)
Theorem identities_are_kept (s s' : Store) did n :
  evolves s s' → s !! did = Some n →
  ∃ n', s' !! did = Some n'
        ∧ entity_type n' = entity_type n ∧ created_at n' = created_at n
        ∧ public_key n' = public_key n ∧ spawned_by n' = spawned_by n
        ∧ t_version (trust n) <= t_version (trust n')
        ∧ w_version (wallet n) <= w_version (wallet n').
Proof.
  intros Hev Hn.
  assert (Hgrows : grows s s').
  { clear Hn. induction Hev as [|clk d key kind spawner s' _ IH
                                |clk d passed latency s' _ IH
                                |clk d amount s' _ IH|clk d amount s' _ IH
                                |clk d amount s' _ IH|clk d amount s' _ IH].
    - apply grows_refl.
    - eapply grows_trans; [exact IH|apply CreateIdentity_grows].
    - eapply grows_trans; [exact IH|].
      apply (calls_grow clk d passed latency Zero s').
    - eapply grows_trans; [exact IH|].
      apply (calls_grow clk d true 0 amount s').
    - eapply grows_trans; [exact IH|].
      apply (calls_grow clk d true 0 amount s').
    - eapply grows_trans; [exact IH|].
      apply (calls_grow clk d true 0 amount s').
    - eapply grows_trans; [exact IH|].
      apply (calls_grow clk d true 0 amount s'). }
  destruct (Hgrows did n Hn) as (n' & Hn' & (Hid & Ht & Hw) ).
  destruct Hid as (? & ? & ? & ?). exists n'. auto 10.
Qed.

Lemma identities_are_kept_witness :
  ∃ n', praised !! alice = Some n'
        ∧ entity_type n' = EntityTypeHuman ∧ created_at n' = 1000
        ∧ public_key n' = [] ∧ spawned_by n' = None
        ∧ 1 <= t_version (trust n') ∧ 1 <= w_version (wallet n').
Proof.
  apply (identities_are_kept opened praised alice
           (alice_node (trust_node 500 200 100 0 1) (wallet_node 0 0 1))).
  - apply (evolves_outcome opened clock alice true 0 opened), evolves_refl.
  - by_evaluation.
Defined.

Lemma scale_in_bounds_upto_200 :
  forallb scale_in_bounds (map Z.of_nat (seq 0 201)) = true.
Proof. vm_compute. reflexivity. Qed.

Lemma scale_component_bounds (z : Z) :
  0 <= z <= 200 → 0 <= service.scale_component z <= 60.
Proof.
  intros Hz.
  assert (Hok : scale_in_bounds z = true).
  { apply (range_check scale_in_bounds 201 scale_in_bounds_upto_200). lia. }
  unfold scale_in_bounds in Hok. apply andb_true_iff in Hok as [Hlo Hhi]. lia.
Qed.

Lemma record_outcome_kept now passed latency t t' :
  repository.record_outcome now passed latency t = Some t' →
  trust_kept t → trust_kept t'.
Proof.
  unfold repository.record_outcome, trust_kept.
  intros H (Hscore & Hdp & Hdr & Hsla & Hnet & Hver & Hout & Hv).
  repeat match type of H with
         | (mbind _ ?m = Some _) =>
             let E := fresh "E" in
             destruct m eqn:E; simpl in H; [|discriminate]
         end.
  injection H as <-. simpl.
  repeat case_match; simplify_eq;
    repeat match goal with
           | E : cy_add _ _ = Some _ |- _ => apply cy_add_inv in E
           | E : cy_sub _ _ = Some _ |- _ => apply cy_sub_inv in E
           end;
    rewrite ?Z.ltb_lt, ?Z.ltb_ge, ?Z.leb_le, ?Z.leb_gt in *;
    repeat split; try assumption; lia.
Qed.

Lemma all_kept_insert (s : Store) did n' :
  all_kept s → well_kept n' → all_kept (<[did := n']> s).
Proof.
  intros Hall Hn' d m Hm. destruct (decide (did = d)) as [<-|Hne].
  - rewrite lookup_insert_eq in Hm. congruence.
  - rewrite lookup_insert_ne in Hm by assumption. eauto.
Qed.

Lemma inheritParentTrust_kept clk child spawner (s : Store) :
  all_kept s → all_kept (after (service.inheritParentTrust clk child spawner) s).
Proof.
  intros Hall. open_call. repeat (case_match; simplify_eq); simpl; try assumption.
  match goal with
  | Hp : _ !! spawner = Some ?np, Hc : _ !! child = Some ?nc |- _ =>
      destruct (Hall _ _ Hp) as [(_ & _ & _ & _ & Hnet & _) _];
      destruct (Hall _ _ Hc) as [(_ & Hdp & Hdr & Hsla & _ & _ & _ & Hv) Hw]
  end.
  apply all_kept_insert; [assumption|].
  match goal with
  | E : cy_add _ _ = Some _ |- _ => apply cy_add_inv in E
  end.
  unfold well_kept, trust_kept, repository.read_trust. simpl.
  rewrite Hdp.
  assert (Hsla' : uint32 (sla_score (trust n0)) = sla_score (trust n0))
    by (apply Z.mod_small; lia).
  assert (Hnet' : uint32 (network_score (trust n)) = network_score (trust n))
    by (apply Z.mod_small; lia).
  rewrite Hsla', Hnet'.
  pose proof (scale_component_bounds _ Hnet).
  assert (0 <= service.scale_component (uint32 (verification_score (trust n)))
          < 2 ^ 32)
    by apply uint32_of_float_range.
  assert (0 <= uint64 (verified_outcomes (trust n0)))
    by (apply Z.mod_pos_bound; lia).
  repeat split; try assumption; try reflexivity; try lia.
  match goal with
  | |- _ <= uint32_of_float ?f => pose proof (uint32_of_float_range f); lia
  end.
Qed.

Lemma CreateIdentity_kept clk did key kind spawner (s : Store) :
  all_kept s → all_kept (after (service.CreateIdentity clk did key kind spawner) s).
Proof.
  intros Hall. rewrite CreateIdentity_after.
  destruct (s !! did); [assumption|]. simpl.
  match goal with
  | |- context [<[did := ?n']> s] =>
      assert (Hnew : all_kept (<[did := n']> s))
  end.
  { apply all_kept_insert; [assumption|].
    unfold well_kept, trust_kept. simpl. repeat split; lia. }
  destruct spawner; [apply inheritParentTrust_kept|]; exact Hnew.
Qed.

Lemma calls_keep clk did passed latency amount (s : Store) :
  all_kept s →
  all_kept (after (service.RecordVerificationOutcome clk did passed latency) s)
  ∧ all_kept (after (service.LockHCForEscrow clk did amount) s)
  ∧ all_kept (after (service.ReleaseHCFromEscrow clk did amount) s)
  ∧ all_kept (after (service.RefundHCFromEscrow clk did amount) s)
  ∧ all_kept (after (service.CreditHC clk did amount) s).
Proof.
  intros Hall.
  split; [|split; [|split; [|split]]];
    open_call; repeat (case_match; simplify_eq); simpl;
    try assumption;
    (apply all_kept_insert; [assumption|]);
    match goal with
    | Hn : _ !! did = Some ?n |- _ => destruct (Hall _ _ Hn) as [Ht Hw]
    end;
    (split; simpl;
     [first [assumption|eapply record_outcome_kept; eassumption]
     |try assumption;
      repeat match goal with
             | E : cy_add _ _ = Some _ |- _ => apply cy_add_inv in E
             end; lia]).
Qed.

Lemma reachable_all_kept (s : Store) : reachable s → all_kept s.
Proof.
  induction 1 as [|clk d key kind spawner s _ IH Hfresh
                  |clk d passed latency s _ IH
                  |clk d amount s _ IH|clk d amount s _ IH
                  |clk d amount s _ IH|clk d amount s _ IH].
  - intros d m Hm. rewrite lookup_empty in Hm. discriminate Hm.
  - apply CreateIdentity_kept, IH.
  - apply (calls_keep clk d passed latency Zero s IH).
  - apply (calls_keep clk d true 0 amount s IH).
  - apply (calls_keep clk d true 0 amount s IH).
  - apply (calls_keep clk d true 0 amount s IH).
  - apply (calls_keep clk d true 0 amount s IH).
Qed.

(** X11.  In every database the service produces, no stored score is
    below -1, no trust score has a dispute penalty or a dispute rate
    other than 0, the SLA and network components are between 0 and
    200, the verification component is at least -1 and below 2^32, and
    the versions of trust scores and wallets are at least 1. *)
Theorem stored_scores_are_kept (s : Store) did n :
  reachable s → s !! did = Some n →
  -1 <= score (trust n)
  ∧ dispute_penalty (trust n) = 0
  ∧ dispute_rate (trust n) = 0%float
  ∧ 0 <= sla_score (trust n) <= 200
  ∧ 0 <= network_score (trust n) <= 200
  ∧ -1 <= verification_score (trust n) < 2 ^ 32
  ∧ 0 <= verified_outcomes (trust n)
  ∧ 1 <= t_version (trust n)
  ∧ 1 <= w_version (wallet n).
Proof.
  intros Hreach Hn.
  destruct (reachable_all_kept s Hreach did n Hn)
    as [(? & ? & ? & ? & ? & ? & ? & ?) ?].
  auto 10.
Qed.

Lemma stored_scores_are_kept_witness :
  ∃ n, family !! parent = Some n
       ∧ dispute_penalty (trust n) = 0
       ∧ 0 <= network_score (trust n) <= 200.
Proof.
  destruct (family !! parent) as [n|] eqn:Hn.
  - destruct (stored_scores_are_kept family parent n family_reachable Hn)
      as (_ & Hdp & _ & _ & Hnet & _).
    exists n. auto.
  - exfalso.
    assert (Hsp : spawned_by <$> family !! parent = Some (Some root))
      by by_evaluation.
    rewrite Hn in Hsp. discriminate Hsp.
Defined.

(** ** The handlers *)

Ltac open_handler :=
  unfold grpc.CreditWallet, grpc.DebitWallet, grpc.LockWallet,
    grpc.ReleaseWallet, grpc.UpdateTrustScore, grpc.GetUnifiedID,
    grpc.GetTrustScore, grpc.GetWallet, grpc.ResolveLineage,
    grpc.with_amount, grpc.call, grpc.reject, grpc.respond,
    service.GetIdentity, service.GetTrustScore, service.GetHCWallet,
    service.GetAgentLineage, repository.GetIdentity,
    repository.GetAgentLineage.


Lemma CreateIdentity_result clk did key kind spawner (s : Store) :
  service.CreateIdentity clk did key kind spawner s
  = match s !! did with
    | Some _ => (Err ErrDatabase, s)
    | None =>
        (Ok {| DID := did; EntityType_ := kind; ParentDID := spawner;
               CreatedAt := go_now clk; PublicKey := key |},
         after (service.CreateIdentity clk did key kind spawner) s)
    end.
Proof.
  unfold after, service.CreateIdentity, bind, repository.CreateIdentity. simpl.
  destruct (s !! did); [reflexivity|]. destruct spawner; reflexivity.
Qed.



Lemma NewFromString_empty : NewFromString "" = None.
Proof. reflexivity. Qed.

Lemma parsed_amount_not_empty amount a :
  NewFromString amount = Some a → grpc.empty amount = false.
Proof.
  intros Ha. unfold grpc.empty. apply bool_decide_eq_false_2. intros ->.
  rewrite NewFromString_empty in Ha. discriminate Ha.
Qed.

Lemma empty_false did : did ≠ ""%string → grpc.empty did = false.
Proof. intros Hne. apply bool_decide_eq_false_2. assumption. Qed.

(** X13.  For a did that is not in the database, crediting, releasing,
    refunding and recording an outcome return no error at the service
    and change nothing; the handlers then fail to read the wallet or
    the trust score back and answer Internal, the lock and debit
    handlers answer FailedPrecondition, and the read handlers answer
    NotFound. *)
Theorem unknown_did_at_the_service clk did amount a update passed latency
    (s : Store) :
  s !! did = None → did ≠ ""%string →
  NewFromString amount = Some a → LessThanOrEqual a Zero = false →
  service.CreditHC clk did a s = (Ok (), s)
  ∧ service.ReleaseHCFromEscrow clk did a s = (Ok (), s)
  ∧ service.RefundHCFromEscrow clk did a s = (Ok (), s)
  ∧ service.RecordVerificationOutcome clk did passed latency s = (Ok (), s)
  ∧ grpc.CreditWallet clk did amount s
    = (grpc.Status grpc.Internal (Some ErrWalletNotFound), s)
  ∧ grpc.ReleaseWallet clk did amount None s
    = (grpc.Status grpc.Internal (Some ErrWalletNotFound), s)
  ∧ grpc.UpdateTrustScore clk did update s
    = (grpc.Status grpc.Internal (Some ErrTrustNotFound), s)
  ∧ grpc.LockWallet clk did amount s
    = (grpc.Status grpc.FailedPrecondition (Some ErrWalletNotFound), s)
  ∧ grpc.DebitWallet clk did amount s
    = (grpc.Status grpc.FailedPrecondition (Some ErrWalletNotFound), s)
  ∧ grpc.GetUnifiedID did s
    = (grpc.Status grpc.NotFound (Some ErrIdentityNotFound), s)
  ∧ grpc.GetTrustScore did s
    = (grpc.Status grpc.NotFound (Some ErrTrustNotFound), s)
  ∧ grpc.GetWallet did s
    = (grpc.Status grpc.NotFound (Some ErrWalletNotFound), s)
  ∧ grpc.ResolveLineage did s
    = (grpc.Status grpc.NotFound (Some ErrLineageNotFound), s).
Proof.
  intros Hdid Hne Ha Hpos.
  pose proof (parsed_amount_not_empty _ _ Ha) as Hamount.
  pose proof (empty_false _ Hne) as Hempty.
  repeat apply conj; open_handler; open_call;
    rewrite ?Hempty, ?Hamount, ?Ha, ?Hpos, ?Hdid; simpl;
    rewrite ?Hdid; try reflexivity.
  destruct update; simpl; rewrite ?Hdid; reflexivity.
Qed.

Lemma unknown_did_at_the_service_witness :
  service.CreditHC clock bob (mk 5 0) opened = (Ok (), opened)
  ∧ grpc.CreditWallet clock bob "5" opened
    = (grpc.Status grpc.Internal (Some ErrWalletNotFound), opened).
Proof.
  destruct (unknown_did_at_the_service clock bob "5" (mk 5 0) None true 0 opened)
    as (Hcredit & _ & _ & _ & Hhandler & _).
  - by_evaluation.
  - discriminate.
  - reflexivity.
  - reflexivity.
  - split; [exact Hcredit|exact Hhandler].
Defined.

(** X14.  Releasing to a target from a did that is not in the database
    credits the target with the full amount, out of no escrow, and then
    answers Internal because the wallet of the sender cannot be read. *)
Theorem release_from_unknown_wallet_credits_target clk did target amount a
    (s : Store) n :
  did ≠ ""%string → target ≠ ""%string →
  NewFromString amount = Some a →
  s !! did = None → s !! target = Some n →
  - 2 ^ 63 <= w_version (wallet n) + 1 < 2 ^ 63 →
  grpc.ReleaseWallet clk did amount (Some target) s
  = (grpc.Status grpc.Internal (Some ErrWalletNotFound),
     <[target := with_wallet n (credited (db_now clk) a (wallet n))]> s).
Proof.
  intros Hne Htarget Ha Hdid Hn Hv.
  assert (Hother : target ≠ did) by congruence.
  open_handler; open_call.
  rewrite (empty_false _ Hne), (parsed_amount_not_empty _ _ Ha), Ha,
    (empty_false _ Htarget), Hdid. simpl. rewrite Hn.
  rewrite cy_add_small by assumption. simpl.
  rewrite lookup_insert_ne by assumption. rewrite Hdid.
  unfold credited. do 4 f_equal. destruct (Z.ltb_spec (expires_at (wallet n))
                                            (db_now clk + P30D)); lia.
Qed.

Lemma release_from_unknown_wallet_credits_target_witness :
  wallet_of alice (after (grpc.ReleaseWallet clock bob "7" (Some alice)) opened)
  = Some (wallet_node 7 0 2)
  ∧ fst (grpc.ReleaseWallet clock bob "7" (Some alice) opened)
    = grpc.Status grpc.Internal (Some ErrWalletNotFound).
Proof.
  pose proof (release_from_unknown_wallet_credits_target clock bob alice "7"
                (mk 7 0) opened
                (alice_node (trust_node 500 200 100 0 1) (wallet_node 0 0 1)))
    as Hrelease.
  unfold after. rewrite Hrelease.
  - by_evaluation.
  - discriminate.
  - discriminate.
  - reflexivity.
  - by_evaluation.
  - by_evaluation.
  - simpl. lia.
Defined.

(** X15.  Creating an identity without a parent, for a key whose did is
    not in the database and any entity type but the unspecified one,
    answers with the did derived from the key, the default trust score
    of 500 (from 200, 0, 100 and 200, at version 1) and an empty wallet
    at version 1, and stores exactly that identity; the unspecified
    entity type is refused as an invalid argument. *)
Theorem CreateUnifiedID_fresh clk key kind (s : Store) :
  kind ≠ grpc.EntityType_ENTITY_TYPE_UNSPECIFIED →
  s !! service.generateDIDKey key = None →
  ∃ r,
    grpc.CreateUnifiedID clk key kind None s
    = (grpc.Reply r,
       <[service.generateDIDKey key :=
           fresh_node clk (grpc.protoToEntityType kind) key None]> s)
    ∧ DID (grpc.UnifiedId r) = service.generateDIDKey key
    ∧ EntityType_ (grpc.UnifiedId r) = grpc.protoToEntityType kind
    ∧ PublicKey (grpc.UnifiedId r) = key
    ∧ Score (grpc.RTrustScore r) = 500
    ∧ Components (grpc.RTrustScore r)
      = {| VerificationScore := 200; DisputePenalty := 0;
           SLAScore := 100; NetworkScore := 200 |}
    ∧ Version (grpc.RTrustScore r) = 1
    ∧ Available (grpc.RWallet r) = Zero
    ∧ Locked (grpc.RWallet r) = Zero
    ∧ WVersion (grpc.RWallet r) = 1
    ∧ grpc.CreateUnifiedID clk key grpc.EntityType_ENTITY_TYPE_UNSPECIFIED None s
      = (grpc.Status grpc.InvalidArgument None, s).
Proof.
  intros Hkind Hfresh.
  set (did := service.generateDIDKey key) in *.
  assert (Hrun :
    grpc.call grpc.Internal
      (service.CreateIdentityFromKey clk key (grpc.protoToEntityType kind) None)
      (λ identity,
         grpc.call grpc.Internal (service.GetTrustScore (DID identity))
           (λ trustScore,
              grpc.call grpc.Internal (service.GetHCWallet (DID identity))
                (λ wallet,
                   grpc.respond
                     {| grpc.UnifiedId := identity;
                        grpc.RTrustScore := trustScore;
                        grpc.RWallet := wallet |}))) s
    = (grpc.Reply
         {| grpc.UnifiedId :=
              {| DID := did; EntityType_ := grpc.protoToEntityType kind;
                 ParentDID := None; CreatedAt := go_now clk; PublicKey := key |};
            grpc.RTrustScore :=
              repository.read_trust
                (repository.default_trust (repository.rfc3339 (go_now clk)));
            grpc.RWallet :=
              repository.read_wallet did
                (repository.default_wallet (db_now clk)
                   (repository.rfc3339 (go_now clk))) |},
       <[did := fresh_node clk (grpc.protoToEntityType kind) key None]> s)).
  { unfold grpc.call, service.CreateIdentityFromKey. fold did.
    rewrite CreateIdentity_result, CreateIdentity_after, Hfresh. simpl.
    unfold service.GetTrustScore, service.GetHCWallet, repository.GetTrustScore,
      repository.GetHCWallet, grpc.respond. simpl.
    rewrite lookup_insert_eq. simpl. rewrite lookup_insert_eq. reflexivity. }
  eexists. split.
  - destruct kind; try exact Hrun. contradiction.
  - simpl. repeat apply conj; reflexivity.
Qed.

Lemma CreateUnifiedID_fresh_witness :
  ∃ r,
    fst (grpc.CreateUnifiedID clock [] grpc.EntityType_ENTITY_TYPE_HUMAN None ∅)
    = grpc.Reply r
    ∧ Score (grpc.RTrustScore r) = 500
    ∧ Available (grpc.RWallet r) = Zero.
Proof.
  destruct (CreateUnifiedID_fresh clock [] grpc.EntityType_ENTITY_TYPE_HUMAN ∅)
    as (r & Hr & _ & _ & _ & Hscore & _ & _ & Havailable & _).
  - discriminate.
  - apply lookup_empty.
  - exists r. rewrite Hr. auto.
Defined.

(** X16.  Creating an identity with a parent that is not in the
    database succeeds: the returned identity names the parent, but the
    stored identity has no spawner and keeps the default trust score,
    and reading it back shows no parent. *)
Theorem spawn_from_unknown_parent clk did key kind spawner (s : Store) :
  s !! did = None → s !! spawner = None → spawner ≠ did →
  service.CreateIdentity clk did key kind (Some spawner) s
  = (Ok {| DID := did; EntityType_ := kind; ParentDID := Some spawner;
           CreatedAt := go_now clk; PublicKey := key |},
     <[did := fresh_node clk kind key None]> s)
  ∧ service.GetIdentity did (<[did := fresh_node clk kind key None]> s)
    = (Ok {| DID := did; EntityType_ := kind; ParentDID := None;
             CreatedAt := zeroTime; PublicKey := key |},
       <[did := fresh_node clk kind key None]> s)
  ∧ trust_read did (<[did := fresh_node clk kind key None]> s)
    = Some (repository.read_trust
              (repository.default_trust (repository.rfc3339 (go_now clk)))).
Proof.
  intros Hfresh Hparent Hne. split; [|split].
  - rewrite CreateIdentity_result, CreateIdentity_after, Hfresh. simpl.
    rewrite Hparent. destruct (decide (spawner = did)); [contradiction|].
    open_call. rewrite lookup_insert_ne by congruence. rewrite Hparent.
    reflexivity.
  - unfold service.GetIdentity, repository.GetIdentity.
    rewrite lookup_insert_eq. reflexivity.
  - unfold trust_read, trust_of. rewrite lookup_insert_eq. reflexivity.
Qed.

Lemma spawn_from_unknown_parent_witness :
  fst (service.CreateIdentity clock kid [] EntityTypeAgent (Some bob) opened)
  = Ok {| DID := kid; EntityType_ := EntityTypeAgent; ParentDID := Some bob;
          CreatedAt := 1000; PublicKey := [] |}.
Proof.
  destruct (spawn_from_unknown_parent clock kid [] EntityTypeAgent bob opened)
    as (Hcreate & _).
  - by_evaluation.
  - by_evaluation.
  - discriminate.
  - rewrite Hcreate. reflexivity.
Defined.

(** ** Escrow *)

(** X17.  No lock of the service is accepted.  The wallet that the
    service reads keeps the zero time as its expiry, so at every instant
    after the year 1, for every wallet in the database and every
    amount, [LockHCForEscrow] returns "wallet has expired credits",
    [LockWallet] and [DebitWallet] answer with a failed precondition,
    and nothing changes. *)
Theorem lock_is_always_refused clk did amount a (s : Store) n :
  zeroTime < go_now clk →
  s !! did = Some n →
  did ≠ ""%string →
  NewFromString amount = Some a →
  service.LockHCForEscrow clk did a s = (Err ErrWalletExpired, s)
  ∧ grpc.LockWallet clk did amount s
    = (grpc.Status grpc.FailedPrecondition (Some ErrWalletExpired), s)
  ∧ (LessThanOrEqual a Zero = false →
     grpc.DebitWallet clk did amount s
     = (grpc.Status grpc.FailedPrecondition (Some ErrWalletExpired), s)).
Proof.
  intros Hnow Hn Hne Ha.
  assert (Hlock : service.LockHCForEscrow clk did a s = (Err ErrWalletExpired, s)).
  { unfold service.LockHCForEscrow, bind, repository.GetHCWallet, fail.
    rewrite Hn. unfold IsExpired, repository.read_wallet. simpl.
    destruct (Z.ltb_spec zeroTime (go_now clk)); [reflexivity|lia]. }
  split; [exact Hlock|].
  unfold grpc.LockWallet, grpc.DebitWallet, grpc.with_amount, grpc.call.
  rewrite (empty_false _ Hne), (parsed_amount_not_empty _ _ Ha), Ha.
  cbv beta. split; [rewrite Hlock; reflexivity|].
  intros Hpos. rewrite Hpos, Hlock. reflexivity.
Qed.

Lemma lock_is_always_refused_witness :
  service.LockHCForEscrow clock alice (mk 60 0) credited_100
  = (Err ErrWalletExpired, credited_100)
  ∧ grpc.LockWallet clock alice "60" credited_100
    = (grpc.Status grpc.FailedPrecondition (Some ErrWalletExpired), credited_100).
Proof.
  destruct (lock_is_always_refused clock alice "60" (mk 60 0) credited_100
              (alice_node (trust_node 500 200 100 0 1) (wallet_node 100 0 2)))
    as (Hservice & Hhandler & _).
  - unfold zeroTime. simpl. lia.
  - by_evaluation.
  - discriminate.
  - reflexivity.
  - split; [exact Hservice|exact Hhandler].
Defined.

(** X18.  A credit to a wallet in the database adds the amount to the
    available balance, leaves the locked balance alone, advances the
    version by one, and moves the stored expiry to thirty days from now
    unless it is later already: a credit never shortens the stored
    expiry, and after a credit the stored expiry is at least thirty
    days away. *)
Theorem credit_extends_expiry clk did amount (s : Store) n :
  s !! did = Some n →
  - 2 ^ 63 <= w_version (wallet n) + 1 < 2 ^ 63 →
  service.CreditHC clk did amount s
  = (Ok (), <[did := with_wallet n (credited (db_now clk) amount (wallet n))]> s)
  ∧ expires_at (wallet n) <= expires_at (credited (db_now clk) amount (wallet n))
  ∧ db_now clk + P30D <= expires_at (credited (db_now clk) amount (wallet n)).
Proof.
  intros Hn Hv. split; [|split].
  - open_call. rewrite Hn. rewrite cy_add_small by assumption.
    unfold credited. do 4 f_equal.
    destruct (Z.ltb_spec (expires_at (wallet n)) (db_now clk + P30D)); lia.
  - unfold credited. simpl. lia.
  - unfold credited. simpl. lia.
Qed.

Lemma credit_extends_expiry_witness :
  service.CreditHC clock alice (mk 10 0) opened
  = (Ok (), <[alice := with_wallet
                (alice_node (trust_node 500 200 100 0 1) (wallet_node 0 0 1))
                (credited 1000 (mk 10 0) (wallet_node 0 0 1))]> opened).
Proof.
  apply (credit_extends_expiry clock alice (mk 10 0) opened
           (alice_node (trust_node 500 200 100 0 1) (wallet_node 0 0 1))).
  - by_evaluation.
  - simpl. lia.
Defined.

(** ** The did of a key *)

Lemma digit_index_digit i : 0 <= i < 64 → digit_index (base64.digit i) = i.
Proof.
  intros Hi. apply Z.eqb_eq.
  apply (range_check (λ i, digit_index (base64.digit i) =? i) 64); [|lia].
  vm_compute. reflexivity.
Qed.

Lemma digit_in_alphabet i : 0 <= i < 64 → base64.digit i ∈ base64.encodeURL.
Proof.
  intros Hi. apply (bool_decide_eq_true_1 _).
  apply (range_check in_alphabet 64); [|lia].
  vm_compute. reflexivity.
Qed.

Lemma byte_value_range b : 0 <= base64.byte_value b < 256.
Proof. unfold base64.byte_value. pose proof (Byte.to_N_bounded b). lia. Qed.

Lemma to_byte_eq z b : z = base64.byte_value b → to_byte z = b.
Proof.
  intros ->. unfold to_byte, base64.byte_value.
  rewrite N2Z.id, Byte.of_to_N. reflexivity.
Qed.

Lemma list_ind3 {A} (P : list A → Prop) :
  P [] → (∀ a, P [a]) → (∀ a b, P [a; b]) →
  (∀ a b c rest, P rest → P (a :: b :: c :: rest)) →
  ∀ l, P l.
Proof.
  intros H0 H1 H2 H3.
  fix IH 1. intros [|a [|b [|c rest]]];
    [exact H0|apply H1|apply H2|apply H3, IH].
Qed.

Lemma sextets v : 0 <= v < 16777216 →
  ((v / 262144 mod 64 * 64 + v / 4096 mod 64) * 64 + v / 64 mod 64) * 64
  + v mod 64 = v.
Proof. intros. Z.div_mod_to_equations. lia. Qed.

Lemma sextets3 v : 0 <= v < 16777216 → v mod 64 = 0 →
  (v / 262144 mod 64 * 64 + v / 4096 mod 64) * 64 + v / 64 mod 64 = v / 64.
Proof. intros. Z.div_mod_to_equations. lia. Qed.

Lemma sextets2 v : 0 <= v < 16777216 → v mod 4096 = 0 →
  v / 262144 mod 64 * 64 + v / 4096 mod 64 = v / 4096.
Proof. intros. Z.div_mod_to_equations. lia. Qed.

Lemma sextet_range v k : 0 <= v / k mod 64 < 64.
Proof. apply Z.mod_pos_bound. lia. Qed.

Lemma decode_encode l : decode (base64.encode l) = l.
Proof.
  induction l as [|a|a b|a b c rest IH] using list_ind3.
  - reflexivity.
  - pose proof (byte_value_range a). cbn [base64.encode decode].
    rewrite !digit_index_digit by apply sextet_range.
    rewrite sextets2 by (Z.div_mod_to_equations; lia).
    f_equal. apply to_byte_eq. Z.div_mod_to_equations; lia.
  - pose proof (byte_value_range a). pose proof (byte_value_range b).
    cbn [base64.encode decode].
    rewrite !digit_index_digit by apply sextet_range.
    rewrite sextets3 by (Z.div_mod_to_equations; lia).
    f_equal; [|f_equal]; apply to_byte_eq; Z.div_mod_to_equations; lia.
  - pose proof (byte_value_range a). pose proof (byte_value_range b).
    pose proof (byte_value_range c).
    cbn [base64.encode decode]. rewrite IH.
    rewrite !digit_index_digit
      by first [apply sextet_range|apply Z.mod_pos_bound; lia].
    rewrite sextets by lia.
    f_equal; [|f_equal; [|f_equal]]; apply to_byte_eq;
      Z.div_mod_to_equations; lia.
Qed.

Lemma string_of_list_ascii_inj l1 l2 :
  string_of_list_ascii l1 = string_of_list_ascii l2 → l1 = l2.
Proof.
  intros Heq. rewrite <- (list_ascii_of_string_of_list_ascii l1),
    <- (list_ascii_of_string_of_list_ascii l2), Heq. reflexivity.
Qed.

Lemma append_prefix_inj (prefix a b : string) :
  (prefix ++ a)%string = (prefix ++ b)%string → a = b.
Proof. induction prefix as [|c prefix IH]; simpl; [auto|]. intros [= H]. auto. Qed.

(** X19.  Two public keys have the same did exactly when they are the
    same key: the encoding of the key in the did can be read back. *)
Theorem did_key_is_injective (key1 key2 : list Byte.byte) :
  service.generateDIDKey key1 = service.generateDIDKey key2 ↔ key1 = key2.
Proof.
  split; [|congruence].
  unfold service.generateDIDKey, base64.EncodeToString.
  intros Heq. apply append_prefix_inj, string_of_list_ascii_inj in Heq.
  apply (f_equal decode) in Heq. rewrite !decode_encode in Heq.
  congruence.
Qed.

Lemma encode_length l :
  Z.of_nat (length (base64.encode l)) = (4 * Z.of_nat (length l) + 2) / 3.
Proof.
  induction l as [|a|a b|a b c rest IH] using list_ind3;
    cbn [base64.encode length]; try reflexivity.
  rewrite !Nat2Z.inj_succ, IH. Z.div_mod_to_equations. lia.
Qed.

Lemma encode_alphabet l : Forall (λ c, c ∈ base64.encodeURL) (base64.encode l).
Proof.
  induction l as [|a|a b|a b c rest IH] using list_ind3;
    cbn [base64.encode];
    repeat first [assumption|apply Forall_nil_2|apply Forall_cons_2];
    apply digit_in_alphabet;
    first [apply sextet_range|apply Z.mod_pos_bound; lia].
Qed.

Lemma string_length_of_list l :
  String.length (string_of_list_ascii l) = length l.
Proof. induction l as [|c l IH]; simpl; [reflexivity|]. rewrite IH. reflexivity. Qed.

Lemma string_length_app (a b : string) :
  String.length (a ++ b) = (String.length a + String.length b)%nat.
Proof. induction a as [|c a IH]; simpl; [reflexivity|]. rewrite IH. reflexivity. Qed.

(** X20.  The did of a key is "did:key:z7Q" followed by digits of the
    URL alphabet of base64 without padding, 9 + ceil (4 (n + 2) / 3)
    characters for a key of n bytes: 55 characters for the 32 bytes of
    an Ed25519 key. *)
Theorem did_key_shape (key : list Byte.byte) :
  ∃ digits,
    service.generateDIDKey key
    = ("did:key:z7Q" ++ string_of_list_ascii digits)%string
    ∧ Forall (λ c, c ∈ base64.encodeURL) digits
    ∧ Z.of_nat (String.length (service.generateDIDKey key))
      = 9 + (4 * (Z.of_nat (length key) + 2) + 2) / 3
    ∧ (length key = 32%nat →
       String.length (service.generateDIDKey key) = 55%nat).
Proof.
  pose proof (encode_alphabet (Byte.xed :: Byte.x01 :: key)) as Halpha.
  pose proof (encode_length (Byte.xed :: Byte.x01 :: key)) as Hlen.
  assert (Hsize :
    Z.of_nat (String.length (service.generateDIDKey key))
    = 9 + (4 * (Z.of_nat (length key) + 2) + 2) / 3).
  { unfold service.generateDIDKey, base64.EncodeToString.
    rewrite string_length_app, string_length_of_list, Nat2Z.inj_add, Hlen.
    cbn [length String.length]. rewrite !Nat2Z.inj_succ.
    Z.div_mod_to_equations. lia. }
  assert (Hhead : ∃ digits,
    base64.encode (Byte.xed :: Byte.x01 :: key)
    = "7"%char :: "Q"%char :: digits).
  { destruct key as [|c rest]; [eexists; reflexivity|].
    pose proof (byte_value_range c) as Hc.
    cbn [base64.encode].
    change (base64.byte_value Byte.xed) with 237.
    change (base64.byte_value Byte.x01) with 1.
    replace ((237 * 65536 + 1 * 256 + base64.byte_value c) / 262144 mod 64)
      with 59 by (Z.div_mod_to_equations; lia).
    replace ((237 * 65536 + 1 * 256 + base64.byte_value c) / 4096 mod 64)
      with 16 by (Z.div_mod_to_equations; lia).
    eexists. reflexivity. }
  destruct Hhead as [digits Hdigits]. exists digits.
  rewrite Hdigits in Halpha.
  apply Forall_cons_1 in Halpha as [_ Halpha].
  apply Forall_cons_1 in Halpha as [_ Halpha].
  split; [|split; [assumption|split; [assumption|]]].
  - unfold service.generateDIDKey, base64.EncodeToString.
    rewrite Hdigits. reflexivity.
  - intros Hkey. rewrite Hkey in Hsize.
    change ((4 * (Z.of_nat 32 + 2) + 2) / 3) with 46 in Hsize. lia.
Qed.

(** ** Signatures *)

Lemma CreateIdentity_key clk did key kind spawner (s : Store) :
  s !! did = None →
  ∃ n, after (service.CreateIdentity clk did key kind spawner) s !! did = Some n
       ∧ public_key n = key.
Proof.
  intros Hfresh. rewrite CreateIdentity_after, Hfresh. simpl.
  destruct spawner as [p|].
  - match goal with
    | |- context [<[did := ?n']> s] =>
        destruct (inheritParentTrust_grows clk did p (<[did := n']> s) did n')
          as (n2 & Hn2 & ((_ & _ & Hkey & _) & _))
    end; [apply lookup_insert_eq|]. eauto.
  - rewrite lookup_insert_eq. eauto.
Qed.

(** X21.  Whatever function checks Ed25519 signatures: once an identity
    has been created for a key of 32 bytes, a signature for its did is
    checked against exactly that key and the verdict is the answer; for
    a key of another length the answer is Internal, and so it is for a
    did that is not in the database. *)
Theorem signature_is_checked_against_the_key
    (Verify : list Byte.byte → list Byte.byte → list Byte.byte → bool)
    clk key kind spawner message signature (s : Store) :
  s !! service.generateDIDKey key = None →
  message ≠ [] → signature ≠ [] →
  let did := service.generateDIDKey key in
  let s' := after (service.CreateIdentityFromKey clk key kind spawner) s in
  grpc.VerifySignature Verify did message signature s'
  = (if decide (length key = 32%nat)
     then grpc.Reply (Verify key message signature)
     else grpc.Status grpc.Internal None, s')
  ∧ ∀ other, other ≠ ""%string → s' !! other = None →
      grpc.VerifySignature Verify other message signature s'
      = (grpc.Status grpc.Internal (Some ErrIdentityNotFound), s').
Proof.
  intros Hfresh Hmessage Hsignature. cbv zeta.
  unfold service.CreateIdentityFromKey.
  assert (Hm : length message ≠ O) by (destruct message; [congruence|discriminate]).
  assert (Hs : length signature ≠ O)
    by (destruct signature; [congruence|discriminate]).
  assert (Hdid : grpc.empty (service.generateDIDKey key) = false).
  { apply empty_false. unfold service.generateDIDKey. discriminate. }
  set (did := service.generateDIDKey key) in *. clearbody did.
  destruct (CreateIdentity_key clk did key kind spawner s Hfresh)
    as (n & Hn & Hkey).
  set (s' := after _ s) in *. clearbody s'.
  split.
  - unfold grpc.VerifySignature, service.VerifyDIDSignature,
      repository.GetIdentity, service.PublicKeySize.
    rewrite Hdid. repeat case_decide; try contradiction; rewrite Hn; simpl;
      rewrite Hkey; case_decide; try contradiction; reflexivity.
  - intros other Hother Hnone.
    unfold grpc.VerifySignature, service.VerifyDIDSignature,
      repository.GetIdentity.
    rewrite (empty_false _ Hother).
    repeat case_decide; try contradiction. rewrite Hnone. reflexivity.
Qed.

Lemma signature_is_checked_against_the_key_witness :
  fst (grpc.VerifySignature (λ _ _ _, true)
         (service.generateDIDKey (replicate 32 Byte.x00)) [Byte.x00] [Byte.x00]
         (after (service.CreateIdentityFromKey clock (replicate 32 Byte.x00)
                   EntityTypeHuman None) ∅))
  = grpc.Reply true.
Proof.
  destruct (signature_is_checked_against_the_key (λ _ _ _, true) clock
              (replicate 32 Byte.x00) EntityTypeHuman None [Byte.x00] [Byte.x00] ∅)
    as [Hverdict _].
  - apply lookup_empty.
  - discriminate.
  - discriminate.
  - rewrite Hverdict. reflexivity.
Defined.

(** ** Spawned agents *)

Lemma elem_of_spawned_agents did (s : Store) u :
  u ∈ spawned_agents did s
  ↔ is_Some (s !! did)
    ∧ service.GetIdentity (DID u) s = (Ok u, s)
    ∧ ParentDID u = Some did.
Proof.
  unfold spawned_agents, service.GetSpawnedAgents, repository.GetSpawnedAgents,
    service.GetIdentity, repository.GetIdentity.
  destruct (s !! did) as [np|] eqn:Hdid; simpl.
  - rewrite list_elem_of_fmap. split.
    + intros ([d n] & -> & Hin). apply list_elem_of_filter in Hin as [Hsp Hin].
      apply elem_of_map_to_list in Hin. simpl in *. rewrite Hin, Hsp.
      split; [eauto|]. split; reflexivity.
    + intros (_ & Hget & Hparent).
      destruct (s !! DID u) as [n|] eqn:Hn; [|discriminate Hget].
      injection Hget as Hu. exists (DID u, n). split.
      * rewrite <- Hu at 1. simpl. rewrite <- Hu in Hparent. simpl in Hparent.
        rewrite Hparent. reflexivity.
      * apply list_elem_of_filter. split.
        -- simpl. rewrite <- Hu in Hparent. exact Hparent.
        -- apply elem_of_map_to_list. exact Hn.
  - split.
    + intros Hin. apply elem_of_nil in Hin. contradiction.
    + intros ([? Hf] & _). discriminate Hf.
Qed.

(** X22.  The agents listed for a did in the database are exactly the
    identities that read back with that did as parent, each listed
    once; for a did that is not in the database the list is empty and
    there is no error. *)
Theorem spawned_agents_are_the_children did (s : Store) :
  (∀ u, u ∈ spawned_agents did s
        ↔ is_Some (s !! did)
          ∧ service.GetIdentity (DID u) s = (Ok u, s)
          ∧ ParentDID u = Some did)
  ∧ NoDup (DID <$> spawned_agents did s)
  ∧ (s !! did = None → service.GetSpawnedAgents did s = (Ok [], s)).
Proof.
  split; [intros u; apply elem_of_spawned_agents|].
  unfold spawned_agents, service.GetSpawnedAgents, repository.GetSpawnedAgents.
  destruct (s !! did) as [np|] eqn:Hdid; simpl.
  - split; [|intros Hf; discriminate Hf].
    rewrite <- list_fmap_compose.
    apply (NoDup_fmap_2_strong _).
    + intros [d1 n1] [d2 n2] Hin1 Hin2 Heq. simpl in Heq. subst d2.
      apply list_elem_of_filter in Hin1 as [_ Hin1].
      apply list_elem_of_filter in Hin2 as [_ Hin2].
      apply elem_of_map_to_list in Hin1, Hin2. congruence.
    + apply NoDup_filter, NoDup_map_to_list.
  - split; [constructor|reflexivity].
Qed.

(** ** Lineage of a spawned agent *)

Lemma spawn_chain_unique (s : Store) l l' did :
  spawn_chain s l did → spawn_chain s l' did → l = l'.
Proof.
  intros Hl. revert l'.
  induction Hl as [did n Hn Hsp|did n p l Hn Hsp _ IH]; intros l' Hl';
    inversion Hl' as [d n' Hn' Hsp'|d n' p' l0 Hn' Hsp' Hl0]; subst;
    try congruence.
  assert (p' = p) by congruence. subst p'.
  f_equal. apply IH. assumption.
Qed.

Lemma spawn_chain_grows (s s' : Store) l did :
  grows s s' → spawn_chain s l did → spawn_chain s' l did.
Proof.
  intros Hgrows. induction 1 as [did n Hn Hsp|did n p l Hn Hsp _ IH].
  - destruct (Hgrows did n Hn) as (n' & Hn' & ((_ & _ & _ & Hsp') & _)).
    eapply chain_root; [eassumption|congruence].
  - destruct (Hgrows did n Hn) as (n' & Hn' & ((_ & _ & _ & Hsp') & _)).
    eapply chain_step; [eassumption|rewrite Hsp'; exact Hsp|assumption].
Qed.

Lemma spawn_chain_root (s : Store) l did :
  spawn_chain s l did →
  ∃ r, s !! List.hd did l = Some r ∧ spawned_by r = None.
Proof.
  induction 1 as [did n Hn Hsp|did n p l Hn Hsp Hl IH].
  - exists n. auto.
  - destruct IH as (r & Hr & Hroot). exists r. split; [|assumption].
    destruct (spawn_chain_length _ _ _ Hl) as [Hlen _].
    destruct l as [|d l]; [simpl in Hlen; lia|]. exact Hr.
Qed.

Lemma CreateIdentity_node clk did key kind spawner (s : Store) :
  s !! did = None →
  ∃ n, after (service.CreateIdentity clk did key kind spawner) s !! did = Some n
       ∧ same_identity
           (fresh_node clk kind key
              match spawner with
              | Some p =>
                  if decide (p = did) then Some p
                  else match s !! p with Some _ => Some p | None => None end
              | None => None
              end) n.
Proof.
  intros Hfresh. rewrite CreateIdentity_after, Hfresh. simpl.
  destruct spawner as [p|].
  - match goal with
    | |- context [<[did := ?n']> s] =>
        destruct (inheritParentTrust_grows clk did p (<[did := n']> s) did n')
          as (n2 & Hn2 & (Hid & _))
    end; [apply lookup_insert_eq|]. eauto.
  - rewrite lookup_insert_eq. eexists. split; [reflexivity|].
    unfold same_identity. auto.
Qed.

(** X23.  When an identity of a database the service produced spawns an
    agent, the lineage of the agent is the lineage of its parent
    followed by the agent itself: the same root, one more in depth,
    and the parent lists the agent among those it spawned. *)
Theorem spawned_agent_extends_the_lineage clk did key kind spawner (s : Store)
    lineage :
  reachable s → s !! did = None → spawner ≠ did →
  service.GetAgentLineage spawner s = (Ok lineage, s) →
  let s' := after (service.CreateIdentity clk did key kind (Some spawner)) s in
  service.GetAgentLineage did s'
  = (Ok {| AgentDID := did; LParentDID := Some spawner;
           RootDID := RootDID lineage; Depth := Depth lineage + 1;
           SpawnedAt := zeroTime;
           Ancestors := Ancestors lineage ++ [did] |}, s')
  ∧ ∃ u, u ∈ spawned_agents spawner s' ∧ DID u = did.
Proof.
  intros Hreach Hfresh Hne Hlineage s'.
  assert (Hreach' : reachable s').
  { apply reach_create; [assumption|congruence]. }
  unfold service.GetAgentLineage, repository.GetAgentLineage in Hlineage.
  destruct (s !! spawner) as [np|] eqn:Hp; [|discriminate Hlineage].
  destruct (repository.spawn_path (S (size s)) s spawner) as [lp|] eqn:Hlp;
    [|discriminate Hlineage].
  injection Hlineage as <-. simpl.
  pose proof (spawn_path_sound _ _ _ _ Hlp) as Hchain.
  destruct (spawn_chain_length _ _ _ Hchain) as [Hlen _].
  destruct (CreateIdentity_node clk did key kind (Some spawner) s Hfresh)
    as (n' & Hn' & (Hkind & Hcreated & Hkey & Hsp)).
  fold s' in Hn'. simpl in Hsp, Hcreated.
  rewrite Hp in Hsp. destruct (decide (spawner = did)); [contradiction|].
  pose proof (spawn_chain_grows s s' lp spawner
                (CreateIdentity_grows clk did key kind (Some spawner) s) Hchain)
    as Hchain'.
  assert (Hchild : spawn_chain s' (lp ++ [did]) did)
    by (eapply chain_step; eassumption).
  destruct (lineage_of_reachable s' did n' Hreach' Hn') as (l' & Hl' & Hcl' & _).
  pose proof (spawn_chain_unique _ _ _ _ Hcl' Hchild) as ->.
  split.
  - rewrite Hl', Hsp. do 2 f_equal.
    destruct lp as [|d lp]; [simpl in Hlen; lia|].
    rewrite length_app. simpl. f_equal. lia.
  - destruct (CreateIdentity_grows clk did key kind (Some spawner) s spawner np Hp)
      as (np' & Hnp' & _).
    fold s' in Hnp'.
    exists {| DID := did; EntityType_ := entity_type n'; ParentDID := spawned_by n';
              CreatedAt := zeroTime; PublicKey := public_key n' |}.
    split; [|reflexivity].
    apply elem_of_spawned_agents. simpl.
    split; [eauto|]. split; [|assumption].
    unfold service.GetIdentity, repository.GetIdentity. rewrite Hn'. reflexivity.
Qed.

Lemma spawned_agent_extends_the_lineage_witness :
  fst (service.GetAgentLineage kid spawned)
  = Ok {| AgentDID := kid; LParentDID := Some alice; RootDID := alice;
          Depth := 1; SpawnedAt := zeroTime; Ancestors := [alice; kid] |}.
Proof.
  destruct (spawned_agent_extends_the_lineage clock kid [] EntityTypeAgent alice
              praised
              {| AgentDID := alice; LParentDID := None; RootDID := alice;
                 Depth := 0; SpawnedAt := zeroTime; Ancestors := [alice] |})
    as [Hlineage _].
  - unfold praised, opened.
    apply reach_outcome, reach_create; [apply reach_empty|discriminate].
  - by_evaluation.
  - discriminate.
  - by_evaluation.
  - unfold spawned. rewrite Hlineage. reflexivity.
Defined.

(** X24.  In every database the service produces the lineage of every
    identity is found: it ends in the identity itself, its depth is the
    number of spawns above the identity and stays below the number of
    identities, it is 0 exactly for an identity that was not spawned,
    and its root is an identity that was not spawned. *)
Theorem lineage_is_found_for_every_identity (s : Store) did n :
  reachable s → s !! did = Some n →
  ∃ lineage,
    service.GetAgentLineage did s = (Ok lineage, s)
    ∧ AgentDID lineage = did
    ∧ LParentDID lineage = spawned_by n
    ∧ last (Ancestors lineage) = Some did
    ∧ Depth lineage = Z.of_nat (length (Ancestors lineage)) - 1
    ∧ 0 <= Depth lineage <= Z.of_nat (size s)
    ∧ (Depth lineage = 0 ↔ spawned_by n = None)
    ∧ ∃ r, s !! RootDID lineage = Some r ∧ spawned_by r = None.
Proof.
  intros Hreach Hn.
  destruct (lineage_of_reachable s did n Hreach Hn) as (l & Hl & Hchain & Hlast).
  eexists. split; [exact Hl|]. simpl.
  destruct (spawn_chain_length _ _ _ Hchain) as [Hlen _].
  assert (Hfuel : ∀ fuel d l0,
            repository.spawn_path fuel s d = Some l0 → (length l0 <= fuel)%nat).
  { induction fuel as [|fuel IH]; intros d l0; simpl; [discriminate|].
    destruct (s !! d) as [m|]; [|discriminate].
    destruct (spawned_by m) as [p|].
    - destruct (repository.spawn_path fuel s p) as [lp|] eqn:Hlp; [|discriminate].
      simpl. intros [= <-]. rewrite length_app. simpl.
      specialize (IH p lp Hlp). lia.
    - intros [= <-]. simpl. lia. }
  unfold service.GetAgentLineage, repository.GetAgentLineage in Hl.
  rewrite Hn in Hl.
  destruct (repository.spawn_path (S (size s)) s did) as [l0|] eqn:Hl0;
    [|discriminate Hl].
  assert (l0 = l) by congruence. subst l0.
  pose proof (Hfuel _ _ _ Hl0) as Hle.
  repeat apply conj; try reflexivity; try assumption; try lia.
  - intros Hdepth. inversion Hchain as [d m Hm Hsp|d m p l1 Hm Hsp Hl1]; subst.
    + congruence.
    + destruct (spawn_chain_length _ _ _ Hl1) as [Hlen1 _].
      rewrite length_app in Hdepth. simpl in Hdepth. lia.
  - intros Hsp. inversion Hchain as [d m Hm Hsp'|d m p l1 Hm Hsp' Hl1]; subst.
    + reflexivity.
    + congruence.
  - apply (spawn_chain_root _ _ _ Hchain).
Qed.

Lemma lineage_is_found_for_every_identity_witness :
  ∃ lineage,
    service.GetAgentLineage kid spawned = (Ok lineage, spawned)
    ∧ AgentDID lineage = kid
    ∧ LParentDID lineage = Some alice.
Proof.
  destruct (spawned !! kid) as [n|] eqn:Hn.
  - destruct (lineage_is_found_for_every_identity spawned kid n)
      as (lineage & Hl & Hagent & Hparent & _).
    + unfold spawned, praised, opened.
      apply reach_create;
        [apply reach_outcome, reach_create; [apply reach_empty|discriminate]
        |discriminate].
    + exact Hn.
    + exists lineage. split; [exact Hl|]. split; [exact Hagent|].
      rewrite Hparent.
      assert (Hsp : spawned_by <$> spawned !! kid = Some (Some alice))
        by by_evaluation.
      rewrite Hn in Hsp. injection Hsp as ->. reflexivity.
  - exfalso.
    assert (Hsp : spawned_by <$> spawned !! kid = Some (Some alice))
      by by_evaluation.
    rewrite Hn in Hsp. discriminate Hsp.
Defined.

Lemma ResolveLineage_of_reachable_witness :
  ∃ l,
    spawn_chain family l agent
    ∧ resolved agent family
      = Some (zip (agent :: l)
                (1%float
                 :: ((λ k, Nat.iter k (λ x, x * InheritedTrust)%float InheritedTrust)
                       <$> seq 0 (length l)))).
Proof.
  destruct (family !! agent) as [n|] eqn:Hn.
  - apply (ResolveLineage_of_reachable family agent n family_reachable Hn).
    discriminate.
  - exfalso.
    assert (Hsp : spawned_by <$> family !! agent = Some (Some parent))
      by by_evaluation.
    rewrite Hn in Hsp. discriminate Hsp.
Defined.

Lemma credit_and_debit_reject_non_positive_witness :
  grpc.CreditWallet clock alice "-5" opened
  = (grpc.Status grpc.InvalidArgument None, opened)
  ∧ grpc.DebitWallet clock alice "0" opened
    = (grpc.Status grpc.InvalidArgument None, opened).
Proof.
  split.
  - apply (credit_and_debit_reject_non_positive clock alice "-5" (mk (-5) 0) opened);
      reflexivity.
  - apply (credit_and_debit_reject_non_positive clock alice "0" (mk 0 0) opened);
      reflexivity.
Defined.

(** ** Updates through the handler *)

(** X27.  The handler records every verification outcome with a latency
    of 0, so in a database the service produced an update through the
    handler never lowers the SLA component: it stays, or goes up by one
    towards its cap of 200. *)
Theorem updates_never_lower_the_sla clk did update (s : Store) n :
  reachable s → s !! did = Some n →
  ∃ n',
    after (grpc.UpdateTrustScore clk did update) s !! did = Some n'
    ∧ sla_score (trust n) <= sla_score (trust n') <= 200
    ∧ (sla_score (trust n') = sla_score (trust n)
       ∨ sla_score (trust n') = Z.min 200 (sla_score (trust n) + 1)).
Proof.
  intros Hreach Hn.
  destruct (reachable_all_kept s Hreach did n Hn)
    as [(_ & _ & _ & Hsla & _) _].
  unfold grpc.UpdateTrustScore, after in *.
  destruct (grpc.empty did); [exists n; simpl; split; [assumption|lia]|].
  destruct update as [success|].
  - unfold grpc.call, service.RecordVerificationOutcome,
      repository.RecordVerificationOutcome.
    rewrite Hn.
    destruct (repository.record_outcome (db_now clk) success 0 (trust n))
      as [t'|] eqn:Ht'.
    + unfold service.GetTrustScore, repository.GetTrustScore, grpc.respond.
      rewrite lookup_insert_eq. simpl. rewrite lookup_insert_eq.
      eexists. split; [reflexivity|]. simpl.
      unfold repository.record_outcome in Ht'.
      repeat match type of Ht' with
             | (mbind _ ?m = Some _) =>
                 let E := fresh "E" in
                 destruct m eqn:E; simpl in Ht'; [|discriminate]
             end.
      injection Ht' as <-. simpl.
      change (0 <=? 2000) with true in *. cbv iota in *.
      match goal with
      | E : (if sla_score (trust n) <? 200 then _ else _) = Some _ |- _ =>
          destruct (Z.ltb_spec (sla_score (trust n)) 200);
          [apply cy_add_inv in E|injection E as <-]
      end; lia.
    + simpl. exists n. split; [assumption|lia].
  - unfold grpc.call, service.GetTrustScore, repository.GetTrustScore,
      grpc.respond. rewrite Hn. simpl. exists n. split; [assumption|lia].
Qed.

Lemma updates_never_lower_the_sla_witness :
  ∃ n',
    after (grpc.UpdateTrustScore clock alice (Some false)) opened !! alice = Some n'
    ∧ 100 <= sla_score (trust n') <= 200.
Proof.
  destruct (updates_never_lower_the_sla clock alice (Some false) opened
              (alice_node (trust_node 500 200 100 0 1) (wallet_node 0 0 1)))
    as (n' & Hn' & Hsla & _).
  - unfold opened. apply reach_create; [apply reach_empty|discriminate].
  - by_evaluation.
  - exists n'. split; [exact Hn'|exact Hsla].
Defined.

(** ** Passed and failed verifications *)

(** X28.  A passed and a failed verification do not cancel: recorded
    one after the other, in either order, on a verification component
    from 2 to 399 they leave it one point lower, with two more outcomes
    counted and the version two higher. *)
Theorem pass_and_fail_cost_a_point clk did latency (s : Store) n :
  s !! did = Some n →
  components_in_bounds (trust n) →
  2 <= verification_score (trust n) <= 399 →
  0 <= t_version (trust n) < 2 ^ 63 - 2 →
  0 <= verified_outcomes (trust n) < 2 ^ 63 - 2 →
  let pass := service.RecordVerificationOutcome clk did true latency in
  let fail := service.RecordVerificationOutcome clk did false latency in
  ∀ s', s' = after fail (after pass s) ∨ s' = after pass (after fail s) →
    ∃ t', trust_of did s' = Some t'
          ∧ verification_score t' = verification_score (trust n) - 1
          ∧ verified_outcomes t' = verified_outcomes (trust n) + 2
          ∧ t_version t' = t_version (trust n) + 2.
Proof.
  intros Hn Hb Hv Hver Hout pass fail s' Hs'.
  assert (Hstep : ∀ passed m (s0 : Store),
            s0 !! did = Some m →
            components_in_bounds (trust m) →
            0 <= t_version (trust m) < 2 ^ 63 - 1 →
            0 <= verified_outcomes (trust m) < 2 ^ 63 - 1 →
            after (service.RecordVerificationOutcome clk did passed latency) s0
            = <[did := with_trust m
                         (after_outcome (db_now clk) passed latency (trust m))]> s0).
  { intros passed m s0 Hm Hbm Hvm Hom.
    unfold after, service.RecordVerificationOutcome,
      repository.RecordVerificationOutcome.
    rewrite Hm, (record_outcome_steps _ _ _ _ Hbm Hvm Hom). reflexivity. }
  assert (Hbounds : ∀ passed,
            components_in_bounds
              (after_outcome (db_now clk) passed latency (trust n))).
  { intros passed. destruct Hb as (? & ? & ? & ?).
    unfold components_in_bounds, after_outcome, next_verification, next_sla.
    simpl. destruct passed, (latency <=? 2000);
      destruct (Z.eqb_spec (verification_score (trust n)) 1); lia. }
  destruct Hs' as [-> | ->]; unfold pass, fail.
  - rewrite (Hstep true n s Hn Hb) by lia.
    erewrite Hstep;
      [|apply lookup_insert_eq|apply (Hbounds true)|simpl; lia|simpl; lia].
    unfold trust_of. rewrite lookup_insert_eq. simpl. eexists.
    split; [reflexivity|]. simpl. unfold next_verification.
    destruct (Z.eqb_spec (Z.min 400 (verification_score (trust n) + 1)) 1); lia.
  - rewrite (Hstep false n s Hn Hb) by lia.
    erewrite Hstep;
      [|apply lookup_insert_eq|apply (Hbounds false)|simpl; lia|simpl; lia].
    unfold trust_of. rewrite lookup_insert_eq. simpl. eexists.
    split; [reflexivity|]. simpl. unfold next_verification.
    destruct (Z.eqb_spec (verification_score (trust n)) 1); lia.
Qed.

Lemma pass_and_fail_cost_a_point_witness :
  ∃ t',
    trust_of alice
      (after (service.RecordVerificationOutcome clock alice false 0)
         (after (service.RecordVerificationOutcome clock alice true 0) opened))
    = Some t'
    ∧ verification_score t' = 199.
Proof.
  destruct (pass_and_fail_cost_a_point clock alice 0 opened
              (alice_node (trust_node 500 200 100 0 1) (wallet_node 0 0 1)))
    with (s' := after (service.RecordVerificationOutcome clock alice false 0)
                  (after (service.RecordVerificationOutcome clock alice true 0)
                     opened))
    as (t' & Ht' & Hv & _).
  - by_evaluation.
  - unfold components_in_bounds. simpl. lia.
  - simpl. lia.
  - simpl. lia.
  - simpl. lia.
  - left. reflexivity.
  - exists t'. split; [exact Ht'|exact Hv].
Defined.

(** ** What a wallet can lock *)

Lemma mul_compare_pos (x y p : Z) : 0 < p → (x * p ?= y * p) = (x ?= y).
Proof.
  intros Hp. destruct (Z.compare_spec x y) as [->|Hlt|Hgt].
  - apply Z.compare_refl.
  - apply Z.compare_lt_iff. nia.
  - apply Z.compare_gt_iff. nia.
Qed.

Lemma Cmp_scaled (a b : Decimal) (e : Z) :
  e <= exp a → e <= exp b →
  Cmp a b = (value a * 10 ^ (exp a - e) ?= value b * 10 ^ (exp b - e)).
Proof.
  intros Ha Hb. unfold Cmp, rescale.
  set (m := Z.min (exp a) (exp b)).
  assert (Hm : e <= m) by lia.
  replace (exp a - e) with ((exp a - m) + (m - e)) by lia.
  replace (exp b - e) with ((exp b - m) + (m - e)) by lia.
  rewrite !Z.pow_add_r by lia. rewrite !Z.mul_assoc.
  symmetry. apply mul_compare_pos. apply Z.pow_pos_nonneg; lia.
Qed.

Lemma GreaterThanOrEqual_scaled (a b : Decimal) (e : Z) :
  e <= exp a → e <= exp b →
  GreaterThanOrEqual a b = true
  ↔ value b * 10 ^ (exp b - e) <= value a * 10 ^ (exp a - e).
Proof.
  intros Ha Hb. unfold GreaterThanOrEqual. rewrite (Cmp_scaled a b e Ha Hb).
  destruct (Z.compare_spec (value a * 10 ^ (exp a - e))
              (value b * 10 ^ (exp b - e))); split; intros; try lia;
    try reflexivity; discriminate.
Qed.

(** X29.  A wallet that can lock an amount now could lock every amount
    that is not larger at every instant that is not later; and it can
    lock nothing once it has expired. *)
Theorem CanLock_is_monotone now earlier (w : HCWallet) amount smaller :
  CanLock now w amount = true →
  LessThanOrEqual smaller amount = true →
  earlier <= now →
  CanLock earlier w smaller = true
  ∧ ∀ later any, IsExpired later w = true → CanLock later w any = false.
Proof.
  unfold CanLock, IsExpired. intros Hcan Hle Hearlier.
  apply andb_true_iff in Hcan as [Hcover Hfresh].
  apply negb_true_iff, Z.ltb_ge in Hfresh.
  split.
  - apply andb_true_iff. split.
    + set (e := Z.min (exp (Available w)) (Z.min (exp amount) (exp smaller))).
      apply (GreaterThanOrEqual_scaled _ _ e); [lia|lia|].
      apply (GreaterThanOrEqual_scaled _ _ e) in Hcover; [|lia|lia].
      assert (Hle' : GreaterThanOrEqual amount smaller = true).
      { unfold GreaterThanOrEqual, LessThanOrEqual in *.
        rewrite (Cmp_scaled amount smaller e) by lia.
        rewrite (Cmp_scaled smaller amount e) in Hle by lia.
        rewrite Z.compare_antisym.
        destruct (value smaller * 10 ^ (exp smaller - e)
                  ?= value amount * 10 ^ (exp amount - e));
          [reflexivity|reflexivity|discriminate Hle]. }
      apply (GreaterThanOrEqual_scaled _ _ e) in Hle'; [|lia|lia].
      lia.
    + apply negb_true_iff, Z.ltb_ge. lia.
  - intros later any Hexpired. rewrite Hexpired. apply andb_false_r.
Qed.

Lemma CanLock_is_monotone_witness :
  CanLock 500
    {| OwnerDID := alice; Available := mk 10 0; Locked := Zero;
       ExpiresAt := 2000; WVersion := 2; WUpdatedAt := 0 |}
    (mk 25 (-1))
  = true.
Proof.
  apply (CanLock_is_monotone 1000 500
           {| OwnerDID := alice; Available := mk 10 0; Locked := Zero;
              ExpiresAt := 2000; WVersion := 2; WUpdatedAt := 0 |}
           (mk 5 0) (mk 25 (-1))).
  - reflexivity.
  - reflexivity.
  - lia.
Defined.

(** ** The discount of a stored score *)

(** X30.  For an identity in the database the discount is computed from
    the stored score as it is read: between 0 and 0.20 for a stored
    score from 0 to 1000, exactly 0.10 for the 500 of a new identity,
    and the full 0.20 for a stored -1, which is read as 4294967295; for
    a did that is not in the database the call fails and there is no
    discount. *)
Theorem CalculateDiscount_of_a_stored_score did (s : Store) n :
  s !! did = Some n →
  (0 <= score (trust n) <= 1000 →
   ∃ d, service.CalculateDiscount did s = (Ok d, s)
        ∧ PrimFloat.leb 0 d = true ∧ PrimFloat.leb d MaxDiscountRate = true)
  ∧ (score (trust n) = 500 →
     service.CalculateDiscount did s = (Ok 0.10%float, s))
  ∧ (score (trust n) = -1 →
     service.CalculateDiscount did s = (Ok MaxDiscountRate, s))
  ∧ ∀ other, s !! other = None →
      service.CalculateDiscount other s = (Err ErrTrustNotFound, s).
Proof.
  intros Hn.
  assert (Hcall : service.CalculateDiscount did s
                  = (Ok (discount_for (uint32 (score (trust n)))), s)).
  { unfold service.CalculateDiscount, bind, ret, repository.GetTrustScore.
    rewrite Hn. reflexivity. }
  rewrite Hcall. split; [|split; [|split]].
  - intros Hscore. eexists. split; [reflexivity|].
    assert (Hread : uint32 (score (trust n)) = score (trust n))
      by (apply Z.mod_small; lia).
    rewrite Hread.
    assert (Hok : discount_in_band (score (trust n)) = true).
    { apply (range_check discount_in_band 1001 discount_in_band_upto_1000). lia. }
    unfold discount_in_band, within in Hok.
    apply andb_true_iff in Hok as [Hrange _].
    apply andb_true_iff in Hrange as [Hlo Hhi]. auto.
  - intros ->. reflexivity.
  - intros ->. reflexivity.
  - intros other Hother.
    unfold service.CalculateDiscount, bind, repository.GetTrustScore.
    rewrite Hother. reflexivity.
Qed.

Lemma CalculateDiscount_of_a_stored_score_witness :
  service.CalculateDiscount alice opened = (Ok 0.10%float, opened).
Proof.
  destruct (CalculateDiscount_of_a_stored_score alice opened
              (alice_node (trust_node 500 200 100 0 1) (wallet_node 0 0 1)))
    as (_ & Hnew & _).
  - by_evaluation.
  - apply Hnew. reflexivity.
Defined.
